(** * AdminPanel: transport adapter, domain API client and session store

    A shallow embedding of the data-fetching and client-state layer of the
    admin panel (the API module, [hooks/useAdminSession.ts] and the payload
    construction of [app/admin/jobs/page.tsx]), followed by the properties
    the specification states about it. *)

From stdpp Require Import gmap list strings numbers pretty sorting.
From Stdlib Require Import Ascii ssreflect.

Set Warnings "-rewrite-rw".

Local Open Scope N_scope.

(** ** JavaScript values *)

Module JS.

(** A JavaScript string is a sequence of UTF-16 code units. *)
Abbreviation str := (list N).

(** Source literals, written as Rocq strings of ASCII characters. *)
Fixpoint lit (s : string) : str :=
  match s with
  | EmptyString => []
  | String a s' => N_of_ascii a :: lit s'
  end.

Global Arguments lit : simpl never.

(** [WhiteSpace] and [LineTerminator] code units: what [trim] removes and
    what the regular-expression class [\s] matches. *)
Definition isWhiteSpace (c : N) : bool :=
  ((9 <=? c) && (c <=? 13)) || (c =? 32) || (c =? 160) || (c =? 0x1680)
  || ((0x2000 <=? c) && (c <=? 0x200A)) || (c =? 0x2028) || (c =? 0x2029)
  || (c =? 0x202F) || (c =? 0x205F) || (c =? 0x3000) || (c =? 0xFEFF).

Fixpoint dropWhile (p : N → bool) (s : str) : str :=
  match s with
  | c :: s' => if p c then dropWhile p s' else s
  | [] => []
  end.

Definition dropWhileEnd (p : N → bool) (s : str) : str :=
  reverse (dropWhile p (reverse s)).

(** [String.prototype.trim] *)
Definition trim (s : str) : str :=
  dropWhileEnd isWhiteSpace (dropWhile isWhiteSpace s).

(** [String.prototype.startsWith], [endsWith] and [includes] *)
Definition startsWith (s p : str) : bool := bool_decide (p `prefix_of` s).
Definition endsWith (s p : str) : bool := bool_decide (p `suffix_of` s).
Fixpoint includes (s sub : str) : bool :=
  startsWith s sub || match s with _ :: s' => includes s' sub | [] => false end.

(** [String.prototype.charAt]: the code unit at an index, as a string of
    length one, or the empty string when out of range. *)
Definition charAt (s : str) (i : nat) : str :=
  match s !! i with Some c => [c] | None => [] end.

(** [Array.prototype.join] on an array of strings *)
Fixpoint join (sep : str) (parts : list str) : str :=
  match parts with
  | [] => []
  | [p] => p
  | p :: rest => p ++ sep ++ join sep rest
  end.

(** [String.prototype.split] with a one-character string separator: every
    occurrence of the separator ends a piece, and the empty string yields
    one empty piece. *)
Fixpoint split (sep : N) (s : str) : list str :=
  match s with
  | [] => [[]]
  | c :: s' =>
      if c =? sep then [] :: split sep s'
      else match split sep s' with
           | p :: ps => (c :: p) :: ps
           | [] => [[c]]
           end
  end.

(** [String.prototype.split] with a regular expression of the form
    [[class]+]: each maximal run of separator characters ends a piece. The
    flag records that the previous character belonged to a run, [cur] is
    the piece being read, most recent character first. *)
Fixpoint splitRuns (isSep : N → bool) (inRun : bool) (cur : str) (s : str)
  : list str :=
  match s with
  | [] => [reverse cur]
  | c :: s' =>
      if isSep c then
        if inRun then splitRuns isSep true cur s'
        else reverse cur :: splitRuns isSep true [] s'
      else splitRuns isSep false (c :: cur) s'
  end.

(** *** Number-to-string conversion

    Numbers are modelled by their integer values: the model has no
    fractions, no [NaN] and no infinite number. An integer of magnitude
    below 2^53 is a Number as it is; a larger one stands for the Number
    nearest to it, as a numeric literal does. *)

(** The Number value for a positive integer: the nearest integer with a
    significand of 53 bits, ties going to the even significand; [None] is
    [Infinity]. *)
Definition roundToDouble (m : Z) : option Z :=
  let bits := (Z.log2 m + 1)%Z in
  if (bits <=? 53)%Z then Some m
  else
    let shift := (bits - 53)%Z in
    let q := Z.shiftr m shift in
    let r := (m - Z.shiftl q shift)%Z in
    let half := Z.shiftl 1 (shift - 1) in
    let q := if (half <? r)%Z || ((r =? half)%Z && Z.odd q)
             then (q + 1)%Z else q in
    let d := Z.shiftl q shift in
    if (Z.shiftl 1 1024 <=? d)%Z then None else Some d.

(** The number of decimal digits of a positive integer. *)
Definition decimalDigits (m : Z) : Z := Z.of_nat (length (lit (pretty m))).

(** The pairs [(n, s)] for which [s] has [k] digits and [s × 10^(n-k)]
    has the Number value [d]; only the two values of [s] nearest to [d]
    need to be tried, for [n] the number of digits of [d] or one more. *)
Definition digitCandidates (d k : Z) : list (Z * Z) :=
  n ← [decimalDigits d; (decimalDigits d + 1)%Z];
  if (n <? k)%Z then []
  else
    s ← [(d / 10 ^ (n - k))%Z; (d / 10 ^ (n - k) + 1)%Z];
    if (10 ^ (k - 1) <=? s)%Z && (s <? 10 ^ k)%Z
       && bool_decide (roundToDouble (s * 10 ^ (n - k)) = Some d)
    then [(n, s)] else [].

(** Among the candidates, the one nearest to [d], and of two equally near
    the even one. *)
Definition nearestCandidate (d k : Z) (l : list (Z * Z)) : option (Z * Z) :=
  let distance (c : Z * Z) := Z.abs (c.2 * 10 ^ (c.1 - k) - d) in
  foldl (λ best c,
           match best with
           | None => Some c
           | Some b =>
               if (distance c <? distance b)%Z
                  || ((distance c =? distance b)%Z && Z.even c.2)
               then Some c else Some b
           end) None l.

(** The integers [n], [k] and [s] of [Number::toString]: [k] is as
    small as possible, at most 17. *)
Definition shortestDigits (d : Z) : Z * Z * Z :=
  default (decimalDigits d, decimalDigits d, d)
    (head (omap (λ k, (λ c : Z * Z, (c.1, k, c.2))
                        <$> nearestCandidate d k (digitCandidates d k))
             (seqZ 1 17))).

(** The digits of [s] followed by zeros when [n] is at most 21, and the
    exponent form otherwise. *)
Definition formatDigits (n k s : Z) : str :=
  if (n <=? 21)%Z then lit (pretty s) ++ replicate (Z.to_nat (n - k)) 48
  else
    match lit (pretty s) with
    | [] => []
    | first :: rest =>
        (if (k =? 1)%Z then [first] else first :: 46 :: rest)
        ++ lit "e+" ++ lit (pretty (n - 1)%Z)
    end.

(** [Number::toString]: below 2^53 the shortest digits that give the
    number back, followed by zeros, are its decimal expansion. *)
Definition Number_toString (z : Z) : str :=
  if (Z.abs z <? 9007199254740992)%Z then lit (pretty z)
  else
    (if (z <? 0)%Z then lit "-" else [])
    ++ match roundToDouble (Z.abs z) with
       | None => lit "Infinity"
       | Some d => let '(n, k, s) := shortestDigits d in formatDigits n k s
       end.

(** JavaScript values as this code meets them: what [JSON.parse] and
    [Response.text] produce, and [undefined]. The fields of an object are its
    own properties in enumeration order. *)
#[warnings="-register-all"]
Inductive value : Type :=
| VUndefined
| VNull
| VBool (b : bool)
| VNum (z : Z)
| VStr (s : str)
| VArr (items : list value)
| VObj (fields : list (str * value)).

(** Truthiness ([ToBoolean]). *)
Definition truthy (v : value) : bool :=
  match v with
  | VUndefined | VNull => false
  | VBool b => b
  | VNum z => negb (z =? 0)%Z
  | VStr s => negb (bool_decide (s = []))
  | VArr _ | VObj _ => true
  end.

Fixpoint lookup_field (k : str) (fields : list (str * value)) : option value :=
  match fields with
  | [] => None
  | (k', v) :: rest => if bool_decide (k' = k) then Some v else lookup_field k rest
  end.

(** Property read [v.k] on a value that is neither [null] nor [undefined],
    for a data property [k] that no prototype defines. *)
Definition get (v : value) (k : str) : value :=
  match v with
  | VObj fields => default VUndefined (lookup_field k fields)
  | _ => VUndefined
  end.

(** Optional chaining [v?.k]. *)
Definition get_opt (v : value) (k : str) : value :=
  match v with
  | VUndefined | VNull => VUndefined
  | _ => get v k
  end.

(** [typeof v === "object" && v !== null] *)
Definition is_object (v : value) : bool :=
  match v with VArr _ | VObj _ => true | _ => false end.

(** The operator [k in v] on an object, for a key that no prototype
    defines. *)
Definition has_key (k : str) (v : value) : bool :=
  match v with
  | VObj fields => bool_decide (is_Some (lookup_field k fields))
  | _ => false
  end.

(** The operator [a || b] on strings. *)
Definition or_str (a b : str) : str :=
  match a with [] => b | _ => a end.

(** Error objects: [new Error(message)] has the name [Error] and no status;
    the subclasses differ in name and [ApiError] carries a status. *)
Record exn : Type := mkExn {
  name : str;
  message : str;
  status : option Z
}.

Definition Error_ (message : str) : exn := mkExn (lit "Error") message None.

(** The [TypeError] of a property read on [null] or [undefined], in the
    wording of V8. *)
Definition TypeError_read (v : value) (k : str) : exn :=
  mkExn (lit "TypeError")
    (lit "Cannot read properties of "
       ++ match v with VNull => lit "null" | _ => lit "undefined" end
       ++ lit " (reading '" ++ k ++ lit "')") None.

(** The [TypeError] of a conversion to a primitive that finds no method
    to call, in the wording of V8. *)
Definition TypeError_primitive : exn :=
  mkExn (lit "TypeError") (lit "Cannot convert object to primitive value") None.

(** Outcome of a computation that may throw. *)
Inductive result (A : Type) : Type :=
| Ok (a : A)
| Throw (e : exn).
Global Arguments Ok {A} a.
Global Arguments Throw {A} e.

(** Property read [v.k], which throws on [null] and [undefined]. *)
Definition prop (v : value) (k : str) : result value :=
  match v with
  | VUndefined | VNull => Throw (TypeError_read v k)
  | _ => Ok (get v k)
  end.

(** [String(v)], and the conversion [ToString] that template literals and
    the [Error] constructor apply. An array joins the conversions of its
    elements with commas, [null] and [undefined] elements giving the empty
    string. A plain object is converted by the method [toString]: the
    inherited one prints [[object Object]]; an own property of that name
    hides it, and since the values here are data and not functions, there
    is then no method to call and the conversion throws a [TypeError]
    ([valueOf], own or inherited, does not give a primitive either). *)
Fixpoint String_ (v : value) : result str :=
  match v with
  | VUndefined => Ok (lit "undefined")
  | VNull => Ok (lit "null")
  | VBool true => Ok (lit "true")
  | VBool false => Ok (lit "false")
  | VNum z => Ok (Number_toString z)
  | VStr s => Ok s
  | VArr items =>
      match
        (fix elems (l : list value) : result (list str) :=
           match l with
           | [] => Ok []
           | x :: l' =>
               match
                 match x with
                 | VNull | VUndefined => Ok []
                 | _ => String_ x
                 end
               with
               | Throw e => Throw e
               | Ok s =>
                   match elems l' with
                   | Throw e => Throw e
                   | Ok rest => Ok (s :: rest)
                   end
               end
           end) items
      with
      | Throw e => Throw e
      | Ok parts => Ok (join (lit ",") parts)
      end
  | VObj fields =>
      if bool_decide (is_Some (lookup_field (lit "toString") fields))
      then Throw TypeError_primitive
      else Ok (lit "[object Object]")
  end.

Definition isHighSurrogate (c : N) : bool := (0xD800 <=? c) && (c <=? 0xDBFF).
Definition isLowSurrogate (c : N) : bool := (0xDC00 <=? c) && (c <=? 0xDFFF).

(** *** [JSON.stringify] *)

Definition hexLower (n : N) : N := if n <? 10 then 48 + n else 87 + n.

(** The escape of a code unit: a backslash, the letter u and four
    hexadecimal digits in lower case. *)
Definition unicodeEscape (c : N) : str :=
  [92; 117; hexLower (c / 4096); hexLower ((c / 256) mod 16);
   hexLower ((c / 16) mod 16); hexLower (c mod 16)].

(** Backspace, tab, line feed, form feed, carriage return, the double quote
    and the backslash have two-character escapes; the other control
    characters are escaped by number. *)
Definition escapeUnit (c : N) : str :=
  if c =? 8 then [92; 98]
  else if c =? 9 then [92; 116]
  else if c =? 10 then [92; 110]
  else if c =? 12 then [92; 102]
  else if c =? 13 then [92; 114]
  else if c =? 34 then [92; 34]
  else if c =? 92 then [92; 92]
  else if c <? 32 then unicodeEscape c
  else [c].

(** Surrogate pairs are kept and unpaired surrogates are escaped. *)
Fixpoint quoteUnits (s : str) : str :=
  match s with
  | [] => []
  | c :: s' =>
      if isHighSurrogate c then
        match s' with
        | d :: s'' =>
            if isLowSurrogate d then c :: d :: quoteUnits s''
            else unicodeEscape c ++ quoteUnits s'
        | [] => unicodeEscape c
        end
      else if isLowSurrogate c then unicodeEscape c ++ quoteUnits s'
      else escapeUnit c ++ quoteUnits s'
  end.

Definition quoteJSONString (s : str) : str := [34] ++ quoteUnits s ++ [34].

(** [JSON.stringify(v)] for a value other than [undefined]: a number that
    is not finite prints as [null], an array prints [undefined] elements as
    [null], and an object omits the properties whose value is
    [undefined]. *)
Fixpoint JSON_stringify (v : value) : str :=
  match v with
  | VUndefined => lit "undefined"
  | VNull => lit "null"
  | VBool true => lit "true"
  | VBool false => lit "false"
  | VNum z =>
      match roundToDouble (Z.abs z) with
      | Some _ => Number_toString z
      | None => lit "null"
      end
  | VStr s => quoteJSONString s
  | VArr items =>
      lit "[" ++
      join (lit ",")
        ((fix elems (l : list value) : list str :=
            match l with
            | [] => []
            | VUndefined :: l' => lit "null" :: elems l'
            | x :: l' => JSON_stringify x :: elems l'
            end) items)
      ++ lit "]"
  | VObj fields =>
      lit "{" ++
      join (lit ",")
        ((fix members (l : list (str * value)) : list str :=
            match l with
            | [] => []
            | (_, VUndefined) :: l' => members l'
            | (k, x) :: l' =>
                (quoteJSONString k ++ lit ":" ++ JSON_stringify x) :: members l'
            end) fields)
      ++ lit "}"
  end.

(** [JSON.parse], which throws a [SyntaxError] on text that is not JSON. *)
Class JsonParser := JSON_parse : str → result value.

(** [String.prototype.toUpperCase] *)
Class CaseMapping := toUpperCase : str → str.

(** The case mapping on strings of code units up to U+00FF, where it is the
    Unicode mapping: the letters a to z and U+00E0 to U+00FE (the division
    sign apart) move down by 32, the micro sign and y with diaeresis map to
    U+039C and U+0178, and sharp s maps to two letters S. Code units above
    U+00FF are left as they are. *)
Definition upperLatin1 (c : N) : str :=
  if (97 <=? c) && (c <=? 122) then [c - 32]
  else if c =? 0xB5 then [0x39C]
  else if c =? 0xDF then [83; 83]
  else if (0xE0 <=? c) && (c <=? 0xFE) && negb (c =? 0xF7) then [c - 32]
  else if c =? 0xFF then [0x178]
  else [c].

Definition toUpperCase_latin1 : CaseMapping := λ s, mjoin (upperLatin1 <$> s).

(** A stand-in for [JSON.parse] that rejects every text. It agrees with
    [JSON.parse] on the texts that are not JSON. *)
Definition JSON_parse_rejecting : JsonParser :=
  λ _, Throw (mkExn (lit "SyntaxError") (lit "Unexpected end of JSON input") None).

End JS.

Import JS.

(** ** The fetch interface *)

Module Fetch.

(** A [Headers] object, as its methods [has] and [get] and its iteration
    show it: a finite map from the names, in lower case, to their values,
    the values given for one name joined by a comma and a space. *)
Abbreviation Headers := (gmap str str).

(** The fields of [RequestInit] that this code sets. A missing method is
    the default [GET]. *)
Record Request : Type := {
  url : str;
  method : option str;
  headers : Headers;
  body : option str;
  cache : option str
}.

(** A response as the adapter observes it: the status line, the
    [Content-Type] header ([None] when absent), and what the body readers
    [json()] and [text()] resolve to. *)
Record Response : Type := {
  status : Z;
  statusText : str;
  contentType : option str;
  json : result value;
  text : str
}.

(** [Response.ok]: the status is in the range 200 to 299. *)
Definition ok (r : Response) : bool :=
  ((200 <=? status r) && (status r <=? 299))%Z.

(** Header names compare without regard to ASCII case and are kept in
    lower case; a value loses the HTTP white space (tab, line feed,
    carriage return and space) at its ends. *)
Definition asciiLower (c : N) : N :=
  if (65 <=? c) && (c <=? 90) then c + 32 else c.

Definition isHttpWhitespace (c : N) : bool :=
  (c =? 9) || (c =? 10) || (c =? 13) || (c =? 32).

Definition normalizeValue (v : str) : str :=
  dropWhileEnd isHttpWhitespace (dropWhile isHttpWhitespace v).

(** A valid header name is a token of HTTP: not empty, of letters, digits
    and the characters of the list below. A valid header value is a string
    of bytes that, normalized, holds no null character and no line break.
    The methods of [Headers] throw a [TypeError] on a name or a value that
    is not valid; the definitions that follow give what they do on valid
    ones, and every call in the API module passes such. *)
Definition isTokenChar (c : N) : bool :=
  ((48 <=? c) && (c <=? 57)) || ((65 <=? c) && (c <=? 90))
  || ((97 <=? c) && (c <=? 122))
  || bool_decide (c ∈ [33; 35; 36; 37; 38; 39; 42; 43; 45; 46; 94; 95; 96;
                       124; 126]).

Definition validHeaderName (k : str) : bool :=
  negb (bool_decide (k = [])) && forallb isTokenChar k.

Definition validHeaderValue (v : str) : bool :=
  forallb (λ c, c <=? 255) v
  && forallb (λ c, negb ((c =? 0) || (c =? 10) || (c =? 13)))
       (normalizeValue v).

(** [append]: a further value for a name joins the ones it has. *)
Definition Headers_append (h : Headers) (k v : str) : Headers :=
  let name := asciiLower <$> k in
  match h !! name with
  | Some values => <[name := values ++ lit ", " ++ normalizeValue v]> h
  | None => <[name := normalizeValue v]> h
  end.

(** [new Headers(init)] appends the pairs of [init] in order. *)
Definition Headers_new (init : list (str * str)) : Headers :=
  foldl (λ h (kv : str * str), Headers_append h kv.1 kv.2) ∅ init.

Definition Headers_has (h : Headers) (k : str) : bool :=
  bool_decide (is_Some (h !! (asciiLower <$> k))).

Definition Headers_set (h : Headers) (k v : str) : Headers :=
  <[asciiLower <$> k := normalizeValue v]> h.

(** [set] on a list of name/value pairs, as [URLSearchParams] defines
    it: the first pair of that name takes the value and the later ones are
    removed; a new name is appended. *)
Definition pairs_set (l : list (str * str)) (k v : str) : list (str * str) :=
  match list_find (λ kv : str * str, kv.1 = k) l with
  | Some (i, _) =>
      take i l ++ (k, v) :: filter (λ kv : str * str, kv.1 ≠ k) (drop (S i) l)
  | None => l ++ [(k, v)]
  end.

(** *** The [application/x-www-form-urlencoded] serializer *)

(** The scalar values of a string, unpaired surrogates replaced by
    U+FFFD. *)
Fixpoint scalars (s : str) : list N :=
  match s with
  | [] => []
  | c :: s' =>
      if isHighSurrogate c then
        match s' with
        | d :: s'' =>
            if isLowSurrogate d
            then (0x10000 + (c - 0xD800) * 0x400 + (d - 0xDC00)) :: scalars s''
            else 0xFFFD :: scalars s'
        | [] => [0xFFFD]
        end
      else if isLowSurrogate c then 0xFFFD :: scalars s'
      else c :: scalars s'
  end.

Definition utf8 (cp : N) : list N :=
  if cp <? 0x80 then [cp]
  else if cp <? 0x800 then [0xC0 + cp / 64; 0x80 + cp mod 64]
  else if cp <? 0x10000 then
    [0xE0 + cp / 4096; 0x80 + (cp / 64) mod 64; 0x80 + cp mod 64]
  else
    [0xF0 + cp / 262144; 0x80 + (cp / 4096) mod 64;
     0x80 + (cp / 64) mod 64; 0x80 + cp mod 64].

Definition hexDigit (n : N) : N := if n <? 10 then 48 + n else 55 + n.

Definition isAlnum (b : N) : bool :=
  ((48 <=? b) && (b <=? 57)) || ((65 <=? b) && (b <=? 90))
  || ((97 <=? b) && (b <=? 122)).

(** A byte is kept when it is alphanumeric or one of [*], [-], [.], [_]; a
    space becomes [+]; any other byte is percent-encoded. *)
Definition urlencodeByte (b : N) : str :=
  if b =? 32 then [43]
  else if isAlnum b || (b =? 42) || (b =? 45) || (b =? 46) || (b =? 95) then [b]
  else [37; hexDigit (b / 16); hexDigit (b mod 16)].

Definition urlencode (s : str) : str :=
  mjoin (urlencodeByte <$> mjoin (utf8 <$> scalars s)).

(** [URLSearchParams.prototype.toString] *)
Definition URLSearchParams_toString (params : list (str * str)) : str :=
  join (lit "&") ((λ kv : str * str, urlencode kv.1 ++ lit "=" ++ urlencode kv.2) <$> params).

End Fetch.

Import Fetch.

(** ** The API module: transport adapter and domain client *)

Module Api.

(** Network requests issued so far, and the outcome. *)
Definition IO (A : Type) : Type := list Request * result A.

Definition ret {A} (a : A) : IO A := ([], Ok a).
Definition throw {A} (e : exn) : IO A := ([], Throw e).
Definition lift {A} (r : result A) : IO A := ([], r).
Definition bind {A B} (m : IO A) (f : A → IO B) : IO B :=
  match m with
  | (t, Ok a) => let '(t', r) := f a in (t ++ t', r)
  | (t, Throw e) => (t, Throw e)
  end.

#[local] Notation "'let*' x ':=' m 'in' k" := (bind m (λ x, k))
  (at level 10, x name, m at level 100, k at level 200, only parsing).

(** An [ApiError] with a message that is a string. *)
Definition ApiError (message : str) (status : Z) : exn :=
  mkExn (lit "ApiError") message (Some status).

(** [new ApiError(message, status)] on a message of any type, other than
    [undefined]: the [Error] constructor converts it to a string, which
    can throw. *)
Definition ApiError_new (message : value) (status : Z) : result exn :=
  match String_ message with
  | Ok text => Ok (ApiError text status)
  | Throw e => Throw e
  end.

(** The two environment variables the base URL is read from. *)
Record ProcessEnv : Type := {
  NEXT_PUBLIC_BACKEND_API : option str;
  BACKEND_API : option str
}.

Definition rawBase (env : ProcessEnv) : str :=
  trim (or_str (default [] (NEXT_PUBLIC_BACKEND_API env))
          (or_str (default [] (BACKEND_API env)) [])).

(** Replacing the match of [/\/+$/] by the empty string removes the trailing
    run of slashes. *)
Definition normalizedBase (rawBase : str) : str :=
  dropWhileEnd (N.eqb 47) rawBase.

(** The base-URL normalization, as a function of the raw base string. *)
Definition normalizeBase (rawBase : str) : str :=
  let normalizedBase := normalizedBase rawBase in
  if endsWith normalizedBase (lit "/api") then normalizedBase
  else normalizedBase ++ lit "/api".

Definition API_BASE (env : ProcessEnv) : str := normalizeBase (rawBase env).

Definition normalizedPath (path : str) : str :=
  if startsWith path (lit "/") then path else lit "/" ++ path.

(** Options of [apiFetch]: the fields of [RequestInit] that callers pass,
    and the flag of the adapter's own. *)
Record ApiInit : Type := {
  init_method : option str;
  init_headers : list (str * str);
  init_body : option str;
  skipContentType : bool
}.

(** [contentType?.includes("application/json")] *)
Definition isJson (response : Response) : bool :=
  match contentType response with
  | Some contentType => includes contentType (lit "application/json")
  | None => false
  end.

(** The payload: the body read as JSON when the response declares JSON, as
    text otherwise. *)
Definition decode (response : Response) : result value :=
  if isJson response then json response else Ok (VStr (text response)).

Section Adapter.

Variable env : ProcessEnv.
(** The network: what [fetch] resolves to, or rejects with. *)
Variable fetch : Request → result Response.

Definition resolveUrl (path : str) : result str :=
  if bool_decide (API_BASE env = []) then
    Throw (Error_ (lit "Missing BACKEND_API environment variable"))
  else Ok (API_BASE env ++ normalizedPath path).

Definition apiFetch (path : str) (init : option ApiInit) : IO value :=
  let* url := lift (resolveUrl path) in
  let headers := Headers_new (default [] (init_headers <$> init)) in
  let body := init ≫= init_body in
  let headers :=
    if negb (default false (skipContentType <$> init))
       && negb (bool_decide (default [] body = []))
       && negb (Headers_has headers (lit "Content-Type"))
    then Headers_set headers (lit "Content-Type") (lit "application/json")
    else headers in
  let request :=
    {| url := url; method := init ≫= init_method; headers := headers;
       body := body; cache := Some (lit "no-store") |} in
  let* response := ([request], fetch request) in
  let isJson := isJson response in
  let* payload := lift (decode response) in
  if negb (ok response) then
    let* text :=
      lift (if isJson && is_object payload && has_key (lit "error") payload
            then String_ (get payload (lit "error"))
            else Ok (statusText response)) in
    let message := or_str text (lit "Unexpected API error") in
    throw (ApiError message (Fetch.status response))
  else ret payload.

Definition post (body : value) : option ApiInit :=
  Some {| init_method := Some (lit "POST"); init_headers := [];
          init_body := Some (JSON_stringify body); skipContentType := false |}.

Definition patch (body : value) : option ApiInit :=
  Some {| init_method := Some (lit "PATCH"); init_headers := [];
          init_body := Some (JSON_stringify body); skipContentType := false |}.

Definition loginAdmin (payload : value) : IO value :=
  let* data := apiFetch (lit "/auth/admin/login") (post payload) in
  if negb (truthy (get_opt data (lit "success")))
     || negb (truthy (get_opt (get data (lit "admin")) (lit "username")))
  then
    let message := get_opt data (lit "message") in
    let* error :=
      lift (ApiError_new (if truthy message then message
                          else VStr (lit "Failed to sign in")) 400) in
    throw error
  else ret (get data (lit "admin")).

(** Parameters of the list endpoints; [None] is an absent property. *)
Record ListParams : Type := {
  limit : option Z;
  offset : option Z
}.

Definition searchParams (params : ListParams) : list (str * str) :=
  let searchParams := [] in
  let searchParams :=
    match limit params with
    | Some l =>
        if negb (l =? 0)%Z
        then pairs_set searchParams (lit "limit") (Number_toString l)
        else searchParams
    | None => searchParams
    end in
  match offset params with
  | Some o => pairs_set searchParams (lit "offset") (Number_toString o)
  | None => searchParams
  end.

Definition jobsEndpoint (params : ListParams) : str :=
  let query := URLSearchParams_toString (searchParams params) in
  if negb (bool_decide (query = [])) then lit "/jobs?" ++ query else lit "/jobs".

(** The result of [fetchJobs]: the object [{jobs, pagination}]. *)
Definition fetchJobs (params : ListParams) : IO value :=
  let* payload := apiFetch (jobsEndpoint params) None in
  let* jobs := lift (prop payload (lit "data")) in
  let* pagination := lift (prop payload (lit "pagination")) in
  ret (VObj [(lit "jobs", jobs); (lit "pagination", pagination)]).

Definition createJob (payload : value) : IO value :=
  let* response := apiFetch (lit "/jobs") (post payload) in
  lift (prop response (lit "data")).

Definition updateJob (jobId : value) (payload : value) : IO value :=
  let* id := lift (String_ jobId) in
  let* response := apiFetch (lit "/jobs/" ++ id) (patch payload) in
  lift (prop response (lit "data")).

End Adapter.

End Api.

(** ** The session store: [hooks/useAdminSession.ts] *)

Module Session.

Definition STORAGE_KEY : str := lit "lintaskode-admin".

(** [window.localStorage]: a key-value store, or, where the browser denies
    storage, an object whose every access throws. *)
Inductive localStorage : Type :=
| Denied (e : exn)
| Storage (items : gmap str str).

(** [window], which is undefined outside the browser. *)
Inductive window : Type :=
| NoWindow
| Window (storage : localStorage).

(** The two state cells of the hook; [admin] is [null] or a session. *)
Record state : Type := {
  admin : value;
  hydrated : bool
}.

(** The state a freshly mounted store starts from. *)
Definition initial : state := {| admin := VNull; hydrated := false |}.

(** What the hook acts on: the browser, its own state and the console. *)
Record world : Type := {
  win : window;
  store : state;
  console : list (str * exn)
}.

Definition fresh (w : window) : world :=
  {| win := w; store := initial; console := [] |}.

Definition Eff (A : Type) : Type := world → result A * world.

Definition ret {A} (a : A) : Eff A := λ w, (Ok a, w).
Definition bind {A B} (m : Eff A) (f : A → Eff B) : Eff B :=
  λ w, match m w with
       | (Ok a, w') => f a w'
       | (Throw e, w') => (Throw e, w')
       end.

#[local] Notation "'let*' x ':=' m 'in' k" := (bind m (λ x, k))
  (at level 10, x name, m at level 100, k at level 200, only parsing).
#[local] Notation "m ;; k" := (bind m (λ _, k))
  (at level 100, k at level 200, right associativity, only parsing).

(** [try { body } catch (error) { handler } finally { finalizer }]: the
    handler runs on a throw of the body, the finalizer runs in every case,
    and a throw of the finalizer replaces the outcome. *)
Definition try_catch_finally {A}
    (body : Eff A) (handler : exn → Eff A) (finalizer : Eff unit) : Eff A :=
  λ w,
    let '(r, w1) :=
      match body w with
      | (Ok a, w') => (Ok a, w')
      | (Throw e, w') => handler e w'
      end in
    match finalizer w1 with
    | (Ok _, w2) => (r, w2)
    | (Throw e, w2) => (Throw e, w2)
    end.

Definition setAdmin (a : value) : Eff unit :=
  λ w, (Ok (), {| win := win w; console := console w;
                  store := {| admin := a; hydrated := hydrated (store w) |} |}).

Definition setHydrated (h : bool) : Eff unit :=
  λ w, (Ok (), {| win := win w; console := console w;
                  store := {| admin := admin (store w); hydrated := h |} |}).

Definition console_warn (text : str) (error : exn) : Eff unit :=
  λ w, (Ok (), {| win := win w; store := store w;
                  console := console w ++ [(text, error)] |}).

Definition ReferenceError_window : exn :=
  mkExn (lit "ReferenceError") (lit "window is not defined") None.

(** [window.localStorage.getItem(k)]: the stored string, or [null]. *)
Definition getItem (k : str) : Eff (option str) :=
  λ w, match win w with
       | NoWindow => (Throw ReferenceError_window, w)
       | Window (Denied e) => (Throw e, w)
       | Window (Storage items) => (Ok (items !! k), w)
       end.

Definition setItem (k v : str) : Eff unit :=
  λ w, match win w with
       | NoWindow => (Throw ReferenceError_window, w)
       | Window (Denied e) => (Throw e, w)
       | Window (Storage items) =>
           (Ok (), {| win := Window (Storage (<[k:=v]> items));
                      store := store w; console := console w |})
       end.

Definition removeItem (k : str) : Eff unit :=
  λ w, match win w with
       | NoWindow => (Throw ReferenceError_window, w)
       | Window (Denied e) => (Throw e, w)
       | Window (Storage items) =>
           (Ok (), {| win := Window (Storage (delete k items));
                      store := store w; console := console w |})
       end.

(** [typeof window !== "undefined"] *)
Definition hasWindow : Eff bool :=
  λ w, (Ok (match win w with NoWindow => false | Window _ => true end), w).

Section Hook.

Context `{!JsonParser}.

(** The mount effect of [useAdminSession]. *)
Definition hydrate : Eff unit :=
  try_catch_finally
    (let* browser := hasWindow in
     let* stored := (if browser then getItem STORAGE_KEY else ret None) in
     match stored with
     | None | Some [] => ret ()
     | Some stored =>
         let* parsed := (λ w, (JSON_parse stored, w)) in
         if truthy (get_opt parsed (lit "username")) then setAdmin parsed
         else ret ()
     end)
    (λ error,
       console_warn (lit "[useAdminSession] Failed to restore admin session") error)
    (setHydrated true).

(** [saveSession], exported as [setSession]. *)
Definition saveSession (session : value) : Eff unit :=
  let* browser := hasWindow in
  if negb browser then ret ()
  else if truthy session then
    setItem STORAGE_KEY (JSON_stringify session);;
    setAdmin session
  else
    removeItem STORAGE_KEY;;
    setAdmin VNull.

End Hook.

Definition isAuthenticated (s : state) : bool :=
  hydrated s && truthy (admin s).

(** An [AdminSession] record. *)
Definition AdminSession (username : str) : value :=
  VObj [(lit "username", VStr username)].

(** The class [[\s._-]] of the separator expression. *)
Definition isSeparator (c : N) : bool :=
  isWhiteSpace c || (c =? 46) || (c =? 95) || (c =? 45).

Definition getAdminInitials `{!CaseMapping} (username : option str) : str :=
  match default [] username with
  | [] => lit "A"
  | username =>
      or_str
        (join []
           ((λ part : str, toUpperCase (charAt part 0))
              <$> take 2
                    (filter (λ part : str, part ≠ [])
                       (splitRuns isSeparator false [] username))))
        (lit "A")
  end.

End Session.

(** ** The jobs page: [app/admin/jobs/page.tsx] *)

Module JobsPage.

Record JobFormValues : Type := {
  title : str;
  slug : str;
  company : str;
  applyUrl : str;
  salary : str;
  image : str;
  tech : str;
  markdown : str;
  isActive : bool
}.

Inductive ModalMode : Type := create | edit.

Definition techArray (values : JobFormValues) : list str :=
  filter (λ t : str, (0 < length t)%nat) (trim <$> split 44 (tech values)).

(** [s || undefined] and [s || null] on a string [s] *)
Definition or_value (s : str) (v : value) : value :=
  match s with [] => v | _ => VStr s end.

Definition payload (values : JobFormValues) : value :=
  VObj [ (lit "title", VStr (title values));
         (lit "company", VStr (company values));
         (lit "applyUrl", VStr (applyUrl values));
         (lit "markdown", VStr (markdown values));
         (lit "tech", VArr (VStr <$> techArray values));
         (lit "slug", or_value (slug values) VUndefined);
         (lit "salary", or_value (salary values) VNull);
         (lit "image", or_value (image values) VNull);
         (lit "isActive", VBool (isActive values)) ].

(** The request that [handleSubmitJob] makes and its outcome: the job the
    backend returns, or [undefined] when no request is made. A failure is
    thrown again as a plain [Error] with the same message. The update of
    the page's job list with the returned job is React state outside this
    model. *)
Definition handleSubmitJob
    (env : Api.ProcessEnv) (fetch : Request → result Response)
    (modalMode : ModalMode) (selectedJob : value) (values : JobFormValues)
  : Api.IO value :=
  let payload := payload values in
  match
    match modalMode with
    | create => Api.createJob env fetch payload
    | edit =>
        if truthy selectedJob
        then Api.updateJob env fetch (get selectedJob (lit "id")) payload
        else Api.ret VUndefined
    end
  with
  | (t, Throw err) => (t, Throw (Error_ (message err)))
  | done => done
  end.

End JobsPage.

(** ** The rest of the domain client *)

Module Client.

Import Api.

#[local] Notation "'let*' x ':=' m 'in' k" := (bind m (λ x, k))
  (at level 10, x name, m at level 100, k at level 200, only parsing).

(** The options [{ method: "DELETE" }]. *)
Definition delete_ : option ApiInit :=
  Some {| init_method := Some (lit "DELETE"); init_headers := [];
          init_body := None; skipContentType := false |}.

Section Operations.

Variable env : ProcessEnv.
Variable fetch : Request → result Response.

(** Job ids are numbers, modelled by their integer values. *)
Definition updateJobStatus (jobId : Z) (isActive : bool) : IO value :=
  let* payload :=
    apiFetch env fetch (lit "/jobs/" ++ Number_toString jobId ++ lit "/status")
      (patch (VObj [(lit "isActive", VBool isActive)])) in
  lift (prop payload (lit "data")).

Definition deleteJob (jobId : Z) : IO unit :=
  let* _ := apiFetch env fetch (lit "/jobs/" ++ Number_toString jobId) delete_ in
  ret ().

Definition articlesEndpoint (params : ListParams) : str :=
  let query := URLSearchParams_toString (searchParams params) in
  if negb (bool_decide (query = [])) then lit "/articles?" ++ query
  else lit "/articles".

(** The result of [fetchArticles]: the object [{articles, pagination}]. *)
Definition fetchArticles (params : ListParams) : IO value :=
  let* payload := apiFetch env fetch (articlesEndpoint params) None in
  let* articles := lift (prop payload (lit "data")) in
  let* pagination := lift (prop payload (lit "pagination")) in
  ret (VObj [(lit "articles", articles); (lit "pagination", pagination)]).

Definition createArticle (payload : value) : IO value :=
  let* response := apiFetch env fetch (lit "/articles") (post payload) in
  lift (prop response (lit "data")).

Definition deleteArticle (slug : str) : IO unit :=
  let* _ := apiFetch env fetch (lit "/articles/" ++ slug) delete_ in
  ret ().

Definition fetchJobAnalytics (jobId : Z) : IO value :=
  let* payload :=
    apiFetch env fetch (lit "/analytics/" ++ Number_toString jobId) None in
  lift (prop payload (lit "data")).

End Operations.

End Client.

(** ** Notions of the specification *)

Module Spec.

(** A string ends in exactly one copy of a suffix: it ends in the suffix
    and not in the suffix twice over. *)
Definition endsInExactlyOne (suffix s : str) : bool :=
  endsWith s suffix && negb (endsWith s (suffix ++ suffix)).

(** A string begins with exactly one copy of a prefix. *)
Definition beginsWithExactlyOne (prefix s : str) : bool :=
  startsWith s prefix && negb (startsWith s (prefix ++ prefix)).

(** The [error] field of a failure payload: present when the body was
    decoded as JSON and is an object with an [error] key. *)
Definition errorField (response : Response) (payload : value) : option value :=
  if Api.isJson response then
    match payload with
    | VObj fields => lookup_field (lit "error") fields
    | _ => None
    end
  else None.

(** A login response is a logical failure when [success] is falsy or
    [admin.username] is missing or falsy. *)
Definition loginFails (data : value) : bool :=
  negb (truthy (get_opt data (lit "success")))
  || negb (truthy (get_opt (get_opt data (lit "admin")) (lit "username"))).

(** The backend's message as a string, or the default when it gives
    none; a message that has no conversion to a string is an error. *)
Definition loginMessage (data : value) : result str :=
  match get_opt data (lit "message") with
  | VUndefined | VNull | VBool false | VNum 0 | VStr [] =>
      Ok (lit "Failed to sign in")
  | message => String_ message
  end.

(** Restoring the session fails with an error: the browser denies access
    to storage, or the stored record is not JSON. *)
Inductive restoreFails `{!JsonParser} : Session.window → exn → Prop :=
| storage_denied e :
    restoreFails (Session.Window (Session.Denied e)) e
| record_malformed items stored e :
    items !! Session.STORAGE_KEY = Some stored →
    stored ≠ [] →
    JSON_parse stored = Throw e →
    restoreFails (Session.Window (Session.Storage items)) e.

(** The text of the warning that a failed restore logs. *)
Definition warning : str :=
  lit "[useAdminSession] Failed to restore admin session".

(** The two hydrated states. *)
Definition unauthenticated : Session.state :=
  {| Session.admin := VNull; Session.hydrated := true |}.

Definition authenticated (s : Session.state) : Prop :=
  Session.hydrated s = true ∧ truthy (Session.admin s) = true.

(** The non-empty parts of a user name, split at runs of separators. *)
Definition parts (username : str) : list str :=
  filter (λ part : str, part ≠ [])
    (splitRuns Session.isSeparator false [] username).

End Spec.

(** ** Navigation, logout and the gates of the pages *)

Module Navigation.

(** The calls made on the router of [next/navigation], in order. *)
Inductive nav : Type :=
| push (href : str)
| replace (href : str).

(** The session store of a page together with its router. *)
Record app : Type := {
  session : Session.world;
  history : list nav
}.

(** [logout] of [useAdminSession]. *)
Definition logout (a : app) : result unit * app :=
  match Session.saveSession VNull (session a) with
  | (Ok _, w) =>
      (Ok (), {| session := w; history := history a ++ [push (lit "/admin")] |})
  | (Throw e, w) => (Throw e, {| session := w; history := history a |})
  end.

(** What [AdminLayout] puts on the screen: a loading notice, nothing, or
    the layout with the page inside. *)
Inductive screen : Type := Loading | Blank | Page.

Definition AdminLayout_render (s : Session.state) : screen :=
  if negb (Session.hydrated s) then Loading
  else if negb (Session.isAuthenticated s) then Blank
  else Page.

(** The effect of [AdminLayout]: what it asks of the router, if anything. *)
Definition AdminLayout_effect (s : Session.state) : option nav :=
  if Session.hydrated s && negb (Session.isAuthenticated s)
  then Some (replace (lit "/admin")) else None.

(** The effect of [AdminLoginPage]. *)
Definition AdminLoginPage_effect (s : Session.state) : option nav :=
  if Session.hydrated s && Session.isAuthenticated s
  then Some (replace (lit "/admin/dashboard")) else None.

End Navigation.

(** ** The login page: [app/admin/page.tsx] *)

Module LoginPage.

Import Navigation.

(** The state cells of the page. *)
Record form : Type := {
  username : str;
  password : str;
  loading : bool;
  error : option str
}.

(** [handleSubmit]: the requests it makes, and the page and the session
    afterwards. Every failure is caught and shown as the error of the
    page. *)
Definition handleSubmit
    (env : Api.ProcessEnv) (fetch : Request → result Response)
    (f : form) (a : app) : list Request * (form * app) :=
  match username f, password f with
  | [], _ | _, [] => ([], (f, a))
  | _, _ =>
      let '(requests, outcome) :=
        Api.loginAdmin env fetch
          (VObj [(lit "username", VStr (username f));
                 (lit "password", VStr (password f))]) in
      let '(error, a) :=
        match outcome with
        | Ok admin =>
            match Session.saveSession admin (session a) with
            | (Ok _, w) =>
                (None,
                 {| session := w;
                    history := history a ++ [push (lit "/admin/dashboard")] |})
            | (Throw err, w) =>
                (Some (message err), {| session := w; history := history a |})
            end
        | Throw err => (Some (message err), a)
        end in
      (requests,
       ({| username := username f; password := password f;
           loading := false; error := error |}, a))
  end.

End LoginPage.

(** ** Typed records of the pages *)

Module Domain.

(** The interface [JobAnalytics]. *)
Record JobAnalytics : Type := {
  jobId : Z;
  totalClicks : Z;
  uniqueUsers : Z;
  lastClickAt : option str;
  analyticsCreatedAt : option str;
  analyticsUpdatedAt : option str
}.

(** The interface [Job]; [None] is [null], and for [analytics] also an
    absent property. *)
Record Job : Type := {
  id : Z;
  slug : str;
  title : str;
  company : str;
  salary : option str;
  tech : list str;
  image : option str;
  isActive : bool;
  applyUrl : str;
  markdown : str;
  createdAt : str;
  analytics : option JobAnalytics
}.

(** [job.analytics?.totalClicks ?? 0] and its sibling. *)
Definition clicksOf (job : Job) : Z :=
  match analytics job with Some a => totalClicks a | None => 0%Z end.

Definition usersOf (job : Job) : Z :=
  match analytics job with Some a => uniqueUsers a | None => 0%Z end.

(** [String.prototype.toLowerCase] *)
Class LowerCase := toLowerCase : str → str.

(** The case mapping on strings of code units up to U+00FF, where it is the
    Unicode mapping: the letters A to Z and U+00C0 to U+00DE (the
    multiplication sign apart) move up by 32. Code units above U+00FF are
    left as they are. *)
Definition lowerLatin1 (c : N) : N :=
  if (65 <=? c) && (c <=? 90) then c + 32
  else if (0xC0 <=? c) && (c <=? 0xDE) && negb (c =? 0xD7) then c + 32
  else c.

Definition toLowerCase_latin1 : LowerCase := λ s, lowerLatin1 <$> s.

(** [Array.prototype.sort] with a consistent comparator: the stable sort,
    in which [a] comes before [b] when the comparator is negative on
    them and elements that compare equal keep their order. *)
Fixpoint sort_insert {A} (compare : A → A → Z) (x : A) (l : list A) : list A :=
  match l with
  | [] => [x]
  | y :: l' =>
      if (compare x y <=? 0)%Z then x :: y :: l'
      else y :: sort_insert compare x l'
  end.

Fixpoint Array_sort {A} (compare : A → A → Z) (l : list A) : list A :=
  match l with
  | [] => []
  | x :: l' => sort_insert compare x (Array_sort compare l')
  end.

End Domain.

(** ** The job form: [app/admin/jobs/job-form-modal.tsx] *)

Module JobForm.

Import JobsPage.

(** [Partial<JobFormValues>]; [None] is an absent property. *)
Record PartialJobFormValues : Type := {
  p_title : option str;
  p_slug : option str;
  p_company : option str;
  p_applyUrl : option str;
  p_salary : option str;
  p_image : option str;
  p_tech : option str;
  p_markdown : option str;
  p_isActive : option bool
}.

Definition BASE_VALUES : JobFormValues :=
  {| title := []; slug := []; company := []; applyUrl := []; salary := [];
     image := []; tech := []; markdown := []; isActive := true |}.

(** The values the form opens with: the base values overridden by the
    initial ones that are present. *)
Definition resolvedInitialValues (initialValues : option PartialJobFormValues)
  : JobFormValues :=
  match initialValues with
  | None => BASE_VALUES
  | Some i =>
      {| title := default (title BASE_VALUES) (p_title i);
         slug := default (slug BASE_VALUES) (p_slug i);
         company := default (company BASE_VALUES) (p_company i);
         applyUrl := default (applyUrl BASE_VALUES) (p_applyUrl i);
         salary := default (salary BASE_VALUES) (p_salary i);
         image := default (image BASE_VALUES) (p_image i);
         tech := default (tech BASE_VALUES) (p_tech i);
         markdown := default (markdown BASE_VALUES) (p_markdown i);
         isActive := default (isActive BASE_VALUES) (p_isActive i) |}
  end.

End JobForm.

(** ** The rest of the jobs page *)

Module JobList.

Import Domain JobsPage JobForm.

(** [getInitialValues]: the form values of the job being edited. *)
Definition getInitialValues (modalMode : ModalMode) (selectedJob : option Job)
  : option PartialJobFormValues :=
  match modalMode, selectedJob with
  | edit, Some selectedJob =>
      Some {| p_title := Some (Domain.title selectedJob);
              p_slug := Some (Domain.slug selectedJob);
              p_company := Some (Domain.company selectedJob);
              p_applyUrl := Some (Domain.applyUrl selectedJob);
              p_salary := Some (or_str (default [] (Domain.salary selectedJob)) []);
              p_image := Some (or_str (default [] (Domain.image selectedJob)) []);
              p_tech := Some (join (lit ", ") (Domain.tech selectedJob));
              p_markdown := Some (Domain.markdown selectedJob);
              p_isActive := Some (Domain.isActive selectedJob) |}
  | _, _ => None
  end.

Inductive FilterStatus : Type := all | active | inactive.

Section Filter.

Context `{!LowerCase}.

Definition matchesSearch (query : str) (job : Job) : bool :=
  bool_decide (length query = 0%nat)
  || includes (toLowerCase (Domain.title job)) query
  || includes (toLowerCase (Domain.company job)) query
  || existsb (λ tag : str, includes (toLowerCase tag) query) (Domain.tech job).

Definition matchesStatus (filterStatus : FilterStatus) (job : Job) : bool :=
  match filterStatus with
  | all => true
  | active => Domain.isActive job
  | inactive => negb (Domain.isActive job)
  end.

Definition filteredJobs (jobs : list Job) (searchQuery : str)
    (filterStatus : FilterStatus) : list Job :=
  let query := toLowerCase (trim searchQuery) in
  filter (λ job : Job, matchesSearch query job && matchesStatus filterStatus job = true)
    jobs.

End Filter.

(** The state cells of the page that the delete action touches. *)
Record page : Type := {
  jobs : list Job;
  error : option str;
  actionJobId : option Z
}.

(** [handleDelete], given the answer of the confirmation dialog. *)
Definition handleDelete
    (env : Api.ProcessEnv) (fetch : Request → result Response)
    (confirmed : bool) (job : Job) (p : page) : list Request * page :=
  if negb confirmed then ([], p)
  else
    match Client.deleteJob env fetch (Domain.id job) with
    | (requests, Ok _) =>
        (requests,
         {| jobs := filter (λ item : Job, Domain.id item ≠ Domain.id job) (jobs p);
            error := error p; actionJobId := None |})
    | (requests, Throw err) =>
        (requests,
         {| jobs := jobs p; error := Some (message err); actionJobId := None |})
    end.

End JobList.

(** ** The analytics page and the dashboard: [app/admin/page.tsx] *)

Module Analytics.

Import Domain.

(** An entry of the performance chart. *)
Record JobPoint : Type := {
  name : str;
  clicks : Z;
  uniqueUsers : Z
}.



(** [metrics.totalClicks] *)
Definition totalClicks (jobs : list Job) : Z :=
  foldl (λ sum job, (sum + clicksOf job)%Z) 0%Z jobs.

(** The job whose detailed analytics the pages load: the first of the jobs
    with clicks, sorted by clicks in descending order. *)
Definition topJob (jobsData : list Job) : option Job :=
  head (Array_sort (λ a b, (clicksOf b - clicksOf a)%Z)
          (filter (λ job, (0 < clicksOf job)%Z) jobsData)).

Definition jobPerformance (jobs : list Job) : list JobPoint :=
  take 8
    (Array_sort (λ a b, (clicks b - clicks a)%Z)
       ((λ job, {| name := title job; clicks := clicksOf job;
                   uniqueUsers := usersOf job |}) <$> jobs)).


(** [topJobsData] of the dashboard: names and clicks of the five jobs
    with the most clicks. *)
Definition topJobsData (jobs : list Job) : list (str * Z) :=
  take 5
    (Array_sort (λ a b : str * Z, (b.2 - a.2)%Z)
       ((λ job, (title job, clicksOf job)) <$> jobs)).

End Analytics.

(** ** The articles page *)

Module ArticlesPage.

Record ArticleFormState : Type := {
  title : str;
  content : str;
  contentType : str;
  slug : str
}.

Definition initialForm : ArticleFormState :=
  {| title := []; content := []; contentType := lit "insight"; slug := [] |}.

(** The state cells of the page that submitting touches; the articles are
    kept as the backend returned them. *)
Record page : Type := {
  articles : list value;
  error : option str;
  form : ArticleFormState;
  submitting : bool
}.

Definition payload (form : ArticleFormState) : value :=
  VObj [ (lit "title", VStr (title form));
         (lit "content", VStr (content form));
         (lit "contentType", JobsPage.or_value (contentType form) VNull);
         (lit "slug", JobsPage.or_value (slug form) VUndefined) ].

(** [handleSubmit] of the article form. *)
Definition handleSubmit
    (env : Api.ProcessEnv) (fetch : Request → result Response)
    (p : page) : list Request * page :=
  match title (form p), content (form p) with
  | [], _ | _, [] =>
      ([], {| articles := articles p;
              error := Some (lit "Judul dan konten markdown wajib diisi");
              form := form p; submitting := submitting p |})
  | _, _ =>
      match Client.createArticle env fetch (payload (form p)) with
      | (requests, Ok newArticle) =>
          (requests,
           {| articles := newArticle :: articles p; error := None;
              form := initialForm; submitting := false |})
      | (requests, Throw err) =>
          (requests,
           {| articles := articles p; error := Some (message err);
              form := form p; submitting := false |})
      end
  end.

End ArticlesPage.

(** ** Further notions *)

Module Notions.

(** The characters that the form-urlencoded serializer leaves as they
    are. *)
Definition unreserved (c : N) : bool :=
  isAlnum c || (c =? 42) || (c =? 45) || (c =? 46) || (c =? 95).

(** The integers of magnitude below 2^53. *)
Definition safeInteger (z : Z) : bool := (Z.abs z <? 9007199254740992)%Z.

(** The decimal expansion of an integer, with a minus sign when it is
    negative. *)
Definition decimal (z : Z) : str := lit (pretty z).

(** The query string of the list endpoints, for a way of printing
    numbers: [limit] when it is a number other than zero, then [offset]
    when it is a number. *)
Definition listQuery (print : Z → str) (params : Api.ListParams) : str :=
  let limit :=
    match Api.limit params with
    | Some l => if (l =? 0)%Z then None else Some l
    | None => None
    end in
  match limit, Api.offset params with
  | None, None => []
  | Some l, None => lit "?limit=" ++ print l
  | None, Some o => lit "?offset=" ++ print o
  | Some l, Some o => lit "?limit=" ++ print l ++ lit "&offset=" ++ print o
  end.

(** A tag in normal form: not empty, without a comma, and without white
    space at either end. *)
Definition wellFormedTag (t : str) : Prop :=
  t ≠ [] ∧ (44 ∉ t)
  ∧ (∀ c, head t = Some c → isWhiteSpace c = false)
  ∧ (∀ c, last t = Some c → isWhiteSpace c = false).


(** A stand-in for [JSON.parse] given by a table of texts and their
    values, which rejects every other text. It agrees with [JSON.parse] on
    the texts of the table when the table does. *)
Definition JSON_parse_table (table : list (str * value)) : JsonParser :=
  λ text,
    match list_find (λ kv : str * value, kv.1 = text) table with
    | Some (_, (_, v)) => Ok v
    | None =>
        Throw (mkExn (lit "SyntaxError") (lit "Unexpected token") None)
    end.

(** What [apiFetch] throws on a response outside the range 200 to 299
    whose body decoded to [payload]. *)
Definition rejection (response : Response) (payload : value) : exn :=
  match
    if Api.isJson response && is_object payload && has_key (lit "error") payload
    then String_ (get payload (lit "error"))
    else Ok (statusText response)
  with
  | Ok text =>
      Api.ApiError (or_str text (lit "Unexpected API error"))
        (Fetch.status response)
  | Throw e => e
  end.

(** A job with the given identifier and number of clicks, for examples. *)
Definition sampleJob (i clicks : Z) : Domain.Job :=
  {| Domain.id := i; Domain.slug := []; Domain.title := [];
     Domain.company := []; Domain.salary := None; Domain.tech := [];
     Domain.image := None; Domain.isActive := true; Domain.applyUrl := [];
     Domain.markdown := []; Domain.createdAt := [];
     Domain.analytics :=
       Some {| Domain.jobId := i; Domain.totalClicks := clicks;
               Domain.uniqueUsers := 1%Z; Domain.lastClickAt := None;
               Domain.analyticsCreatedAt := None;
               Domain.analyticsUpdatedAt := None |} |}.

End Notions.

(** * Properties *)

(** ** Strings *)

Section StringFacts.

Implicit Types (s t : str) (p : N → bool) (c : N).

Lemma dropWhile_split p s :
  ∃ a, s = a ++ dropWhile p s ∧ Forall (λ c, p c = true) a.
Proof.
  induction s as [|c s [a [Hs Ha]]]; simpl.
  - by exists [].
  - destruct (p c) eqn:Hc.
    + exists (c :: a). split; [by rewrite /= -Hs | by constructor].
    + by exists [].
Qed.

Lemma dropWhile_head p s c : head (dropWhile p s) = Some c → p c = false.
Proof.
  induction s as [|d s IH]; simpl; [done|].
  destruct (p d) eqn:Hd; [done|]. simpl. by intros [= ->].
Qed.

Lemma dropWhileEnd_split p s :
  ∃ b, s = dropWhileEnd p s ++ b ∧ Forall (λ c, p c = true) b.
Proof.
  destruct (dropWhile_split p (reverse s)) as [a [Hs Ha]].
  exists (reverse a). split.
  - rewrite /dropWhileEnd -reverse_app -Hs. by rewrite reverse_involutive.
  - by apply Forall_reverse.
Qed.

Lemma dropWhileEnd_last p s c : last (dropWhileEnd p s) = Some c → p c = false.
Proof.
  rewrite /dropWhileEnd last_reverse. apply dropWhile_head.
Qed.

Lemma dropWhileEnd_snoc p s c : p c = false → dropWhileEnd p (s ++ [c]) = s ++ [c].
Proof.
  intros Hc. rewrite /dropWhileEnd reverse_snoc /= Hc.
  by rewrite reverse_cons reverse_involutive.
Qed.

Lemma dropWhileEnd_head p s c :
  head (dropWhileEnd p s) = Some c → head s = Some c.
Proof.
  destruct (dropWhileEnd_split p s) as [b [Hs _]].
  rewrite {2}Hs. destruct (dropWhileEnd p s); [done|]. done.
Qed.

Lemma endsWith_true s t : endsWith s t = true ↔ t `suffix_of` s.
Proof. rewrite /endsWith. apply bool_decide_eq_true. Qed.

Lemma endsWith_false s t : endsWith s t = false ↔ ¬ t `suffix_of` s.
Proof. rewrite /endsWith. apply bool_decide_eq_false. Qed.

Lemma startsWith_true s t : startsWith s t = true ↔ t `prefix_of` s.
Proof. rewrite /startsWith. apply bool_decide_eq_true. Qed.

Lemma startsWith_false s t : startsWith s t = false ↔ ¬ t `prefix_of` s.
Proof. rewrite /startsWith. apply bool_decide_eq_false. Qed.

Lemma startsWith_nil s : startsWith s [] = true.
Proof. apply startsWith_true, prefix_nil. Qed.

Lemma startsWith_cons c s t : startsWith (c :: s) (c :: t) = startsWith s t.
Proof.
  rewrite /startsWith. apply bool_decide_ext. split.
  - apply prefix_cons_inv_2.
  - apply prefix_cons.
Qed.

Lemma startsWith_cons_ne c d s t : c ≠ d → startsWith (c :: s) (d :: t) = false.
Proof.
  intros Hne. apply startsWith_false. intros Hp.
  apply prefix_cons_inv_1 in Hp. congruence.
Qed.

Lemma or_str_nonempty s t : t ≠ [] → or_str s t ≠ [].
Proof. by destruct s. Qed.

(** Numbers at and above 2^53: the literal 2^53 + 1 is the Number 2^53;
    digits beyond the shortest that give the number back are zeros; the
    exponent form starts at 10^21. *)
Example Number_toString_examples :
  Number_toString 9007199254740991 = lit "9007199254740991"
  ∧ Number_toString 9007199254740993 = lit "9007199254740992"
  ∧ Number_toString (-1152921504606846976) = lit "-1152921504606847000"
  ∧ Number_toString 123456789012345678901 = lit "123456789012345680000"
  ∧ Number_toString 1000000000000000000000 = lit "1e+21"
  ∧ Number_toString 12345678901234567890123 = lit "1.2345678901234568e+22"
  ∧ Number_toString 100000000000000000000000 = lit "1e+23".
Proof. repeat split; vm_compute; reflexivity. Qed.

(** Conversions to a string: arrays flatten, plain objects print alike,
    and an object with a property [toString] of its own has none. *)
Example String_examples :
  String_ (VArr [VNum 1; VNull; VArr [VStr (lit "a"); VUndefined]; VBool true])
  = Ok (lit "1,,a,,true")
  ∧ String_ (VObj [(lit "code", VNum 7)]) = Ok (lit "[object Object]")
  ∧ String_ (VObj [(lit "toString", VStr (lit "x"))])
    = Throw TypeError_primitive
  ∧ String_ (VArr [VNum 1; VObj [(lit "toString", VNull)]])
    = Throw TypeError_primitive.
Proof. repeat split; vm_compute; reflexivity. Qed.

End StringFacts.

(** ** The base URL and the resolution of paths *)

Section BaseUrl.

Import Api Spec.

Lemma normalizedBase_fixed (s : str) :
  lit "/api" `suffix_of` s → normalizedBase s = s.
Proof.
  intros [k ->]. rewrite /normalizedBase.
  change (lit "/api") with ([47; 97; 112] ++ [105]).
  rewrite app_assoc. by apply dropWhileEnd_snoc.
Qed.

Lemma normalizeBase_suffix (raw : str) :
  lit "/api" `suffix_of` normalizeBase raw.
Proof.
  rewrite /normalizeBase.
  destruct (endsWith _ _) eqn:He.
  - by apply endsWith_true.
  - by apply suffix_app_r.
Qed.

Lemma normalizeBase_fixed (s : str) :
  lit "/api" `suffix_of` s → normalizeBase s = s.
Proof.
  intros Hs. rewrite /normalizeBase normalizedBase_fixed //.
  by apply endsWith_true in Hs as ->.
Qed.

Lemma API_BASE_nonempty (env : ProcessEnv) : API_BASE env ≠ [].
Proof.
  intros He. pose proof (normalizeBase_suffix (rawBase env)) as Hs.
  rewrite /API_BASE in He. rewrite He in Hs.
  by apply suffix_nil_inv in Hs.
Qed.

Lemma resolveUrl_ok (env : ProcessEnv) (path : str) :
  resolveUrl env path = Ok (API_BASE env ++ normalizedPath path).
Proof.
  rewrite /resolveUrl. rewrite bool_decide_eq_false_2 //.
  apply API_BASE_nonempty.
Qed.

(** Against C2 as stated: the doubled suffix survives. A base that already
    ends in [/api/api] is returned as it is, and so ends in two [/api]
    segments. *)
Lemma normalizeBase_keeps_doubled_suffix :
  normalizeBase (lit "https://example.com/api/api/")
    = lit "https://example.com/api/api"
  ∧ endsInExactlyOne (lit "/api")
      (normalizeBase (lit "https://example.com/api/api/")) = false.
Proof. split; vm_compute; reflexivity. Qed.

(** C2, as amended. The normalization of the base URL is idempotent and its
    result always ends in [/api]; it never appends a second [/api]: the
    result ends in [/api/api] exactly when the configured value, its
    trailing slashes stripped, already did. *)
Theorem normalizeBase_idempotent (raw : str) :
  normalizeBase (normalizeBase raw) = normalizeBase raw
  ∧ endsWith (normalizeBase raw) (lit "/api") = true
  ∧ endsInExactlyOne (lit "/api") (normalizeBase raw)
      = negb (endsWith (normalizedBase raw) (lit "/api/api")).
Proof.
  split; [|split].
  - apply normalizeBase_fixed, normalizeBase_suffix.
  - apply endsWith_true, normalizeBase_suffix.
  - rewrite /endsInExactlyOne.
    rewrite (proj2 (endsWith_true _ _) (normalizeBase_suffix raw)) /=.
    f_equal. rewrite /normalizeBase.
    destruct (endsWith (normalizedBase raw) (lit "/api")) eqn:He; [done|].
    apply endsWith_false in He.
    transitivity false; [|symmetry]; apply endsWith_false; intros Hs; apply He.
    + by apply (suffix_app_inv _ _ (lit "/api")).
    + by apply (suffix_app_l _ _ (lit "/api")).
Qed.

(** Against C8 as stated: a path that begins with two slashes keeps
    both. *)
Lemma resolveUrl_keeps_double_slash :
  resolveUrl {| NEXT_PUBLIC_BACKEND_API := Some (lit "https://example.com");
                BACKEND_API := None |} (lit "//jobs")
    = Ok (lit "https://example.com/api//jobs")
  ∧ beginsWithExactlyOne (lit "/") (normalizedPath (lit "//jobs")) = false.
Proof. split; vm_compute; reflexivity. Qed.

(** C8, as amended. The URL is the API base followed by the path, to which
    a slash is prepended when it does not begin with one; the normalized
    path always begins with a slash, and with exactly one unless the input
    path begins with two. *)
Theorem resolveUrl_leading_slash (env : ProcessEnv) (path : str) :
  resolveUrl env path = Ok (API_BASE env ++ normalizedPath path)
  ∧ startsWith (normalizedPath path) (lit "/") = true
  ∧ normalizedPath path
      = (if startsWith path (lit "/") then path else lit "/" ++ path)
  ∧ beginsWithExactlyOne (lit "/") (normalizedPath path)
      = negb (startsWith path (lit "//")).
Proof.
  split; [apply resolveUrl_ok|].
  rewrite /beginsWithExactlyOne /normalizedPath.
  change (lit "/" ++ lit "/") with (lit "//"). change (lit "/") with [47].
  change (lit "//") with [47; 47].
  destruct path as [|c path]; [by vm_compute|].
  destruct (decide (c = 47)) as [->|Hc].
  - rewrite !startsWith_cons startsWith_nil /=.
    by destruct (startsWith path [47]).
  - rewrite !(startsWith_cons_ne c) //= !startsWith_cons startsWith_nil /=.
    by rewrite startsWith_cons_ne.
Qed.

End BaseUrl.

(** ** The transport adapter *)

Section Transport.

Import Api Spec Notions.

Implicit Types (env : ProcessEnv) (fetch : Request → result Response).

(** One request goes out, to the resolved URL; what comes back decides the
    outcome. *)
Lemma apiFetch_run env fetch path init :
  ∃ request,
    url request = API_BASE env ++ normalizedPath path
    ∧ method request = init ≫= init_method
    ∧ body request = init ≫= init_body
    ∧ apiFetch env fetch path init =
        ([request],
         match fetch request with
         | Throw e => Throw e
         | Ok response =>
             match decode response with
             | Throw e => Throw e
             | Ok payload =>
                 if ok response then Ok payload
                 else Throw (rejection response payload)
             end
         end).
Proof.
  rewrite /apiFetch resolveUrl_ok. cbn [bind lift app].
  match goal with |- context [fetch ?r] => exists r end.
  do 3 (split; [done|]).
  destruct (fetch _) as [response|e]; [|done].
  cbn [bind lift app]. destruct (decode response) as [payload|e]; [|done].
  cbn [bind lift app]. rewrite /rejection.
  destruct (ok response); [done|]. cbn [negb].
  by destruct (if _ then _ else _).
Qed.

(** C1. With no base URL configured the API base is [/api], not the empty
    string, so the guard of [resolveUrl] does not fire: the URL resolves
    and [apiFetch] issues its request. *)
Theorem apiFetch_without_base_reaches_network env fetch path init :
  rawBase env = [] →
  API_BASE env = lit "/api"
  ∧ resolveUrl env path = Ok (lit "/api" ++ normalizedPath path)
  ∧ ∃ request,
      url request = lit "/api" ++ normalizedPath path
      ∧ (apiFetch env fetch path init).1 = [request].
Proof.
  intros Hraw.
  assert (API_BASE env = lit "/api") as Hbase by by rewrite /API_BASE Hraw.
  split; [done|]. split; [by rewrite resolveUrl_ok Hbase|].
  destruct (apiFetch_run env fetch path init) as (request & Hurl & _ & _ & ->).
  exists request. by rewrite Hurl Hbase.
Qed.

Lemma apiFetch_without_base_witness :
  let env := {| NEXT_PUBLIC_BACKEND_API := None; BACKEND_API := Some [] |} in
  let fetch := λ _ : Request, Throw (mkExn (lit "TypeError") (lit "Failed to fetch") None) in
  API_BASE env = lit "/api"
  ∧ resolveUrl env (lit "/jobs") = Ok (lit "/api" ++ normalizedPath (lit "/jobs"))
  ∧ ∃ request,
      url request = lit "/api" ++ normalizedPath (lit "/jobs")
      ∧ (apiFetch env fetch (lit "/jobs") None).1 = [request].
Proof.
  apply (apiFetch_without_base_reaches_network
           {| NEXT_PUBLIC_BACKEND_API := None; BACKEND_API := Some [] |}).
  reflexivity.
Defined.

(** Induction on values that reaches the elements of arrays. *)
Lemma value_array_ind (P : value → Prop) :
  P VUndefined → P VNull → (∀ b, P (VBool b)) → (∀ z, P (VNum z)) →
  (∀ s, P (VStr s)) →
  (∀ items, Forall P items → P (VArr items)) →
  (∀ fields, P (VObj fields)) →
  ∀ v, P v.
Proof.
  intros Hu Hn Hb Hz Hs Ha Ho. fix IH 1.
  intros [| |b|z|s|items|fields]; [done..| |done].
  apply Ha. revert items. fix IHitems 1.
  intros [|x items]; constructor; [apply IH|apply IHitems].
Qed.

(** The only error of a conversion to a string is the [TypeError] of an
    object that hides [toString]. *)
Lemma String_throws (v : value) (e : exn) :
  String_ v = Throw e → e = TypeError_primitive.
Proof.
  revert e. induction v as [| |[]|z|s|items Hall|fields] using value_array_ind;
    intros e; cbn [String_]; try done.
  - match goal with
    | |- match ?f items with _ => _ end = _ → _ => set (elems := f)
    end.
    assert (∀ e', elems items = Throw e' → e' = TypeError_primitive) as Helems.
    { induction Hall as [|x items Hx Hall IH]; [done|].
      intros e'. cbn [elems].
      assert (∀ e'',
                match x with
                | VNull | VUndefined => Ok []
                | _ => String_ x
                end = Throw e'' → e'' = TypeError_primitive) as Hhead.
      { intros e''. destruct x; try done; apply Hx. }
      destruct (match x with VNull | VUndefined => Ok [] | _ => String_ x end)
        as [text|e'']; [|intros [= <-]; by apply Hhead].
      fold elems. destruct (elems items) as [rest|e'']; [done|].
      intros [= <-]. by apply IH. }
    destruct (elems items) as [parts|e']; [done|].
    intros [= <-]. by apply Helems.
  - case_bool_decide; [|done]. by intros [= <-].
Qed.

(** A plain object converts to a string exactly when it has no property
    [toString] of its own. *)
Lemma String_object (fields : list (str * value)) :
  String_ (VObj fields)
  = if has_key (lit "toString") (VObj fields)
    then Throw TypeError_primitive else Ok (lit "[object Object]").
Proof. done. Qed.

Lemma rejection_eq (response : Response) (payload : value) :
  rejection response payload
  = match errorField response payload with
    | Some e =>
        match String_ e with
        | Ok text =>
            ApiError (or_str text (lit "Unexpected API error"))
              (Fetch.status response)
        | Throw t => t
        end
    | None =>
        ApiError (or_str (statusText response) (lit "Unexpected API error"))
          (Fetch.status response)
    end.
Proof.
  rewrite /rejection /errorField. destruct (isJson response); [|done].
  destruct payload as [| | | | |items|fields]; try done.
  rewrite /= /get. destruct (lookup_field _ fields) as [e|] eqn:He.
  - by rewrite bool_decide_eq_true_2.
  - rewrite bool_decide_eq_false_2; [by intros [? ?]|done].
Qed.

(** What [apiFetch] throws on a response outside the range 200 to 299
    has a message. *)
Lemma rejection_message (response : Response) (payload : value) :
  message (rejection response payload) ≠ [].
Proof.
  rewrite rejection_eq.
  destruct (errorField response payload) as [e|].
  - destruct (String_ e) as [text|t] eqn:Ht; [by apply or_str_nonempty|].
    by rewrite (String_throws _ _ Ht).
  - by apply or_str_nonempty.
Qed.

(** Against C4 as stated, three failures outside the fallback order: a
    body that is declared JSON and is not makes [apiFetch] throw the parse
    error, which has no status; an [error] field that is the empty string
    gives the generic message although the response has a status text; and
    an [error] field that is an object with a property [toString] of its
    own makes the conversion throw a [TypeError], which has no status. *)
Lemma apiFetch_failure_outside_fallback :
  let env := {| NEXT_PUBLIC_BACKEND_API := Some (lit "https://example.com");
                BACKEND_API := None |} in
  let syntaxError :=
    mkExn (lit "SyntaxError") (lit "Unexpected end of JSON input") None in
  let malformed :=
    {| Fetch.status := 502; statusText := lit "Bad Gateway";
       contentType := Some (lit "application/json");
       json := Throw syntaxError; text := [] |} in
  let emptyError :=
    {| Fetch.status := 404; statusText := lit "Not Found";
       contentType := Some (lit "application/json");
       json := Ok (VObj [(lit "error", VStr [])]); text := lit "{}" |} in
  let hiddenToString :=
    {| Fetch.status := 500; statusText := lit "Internal Server Error";
       contentType := Some (lit "application/json");
       json := Ok (VObj [(lit "error", VObj [(lit "toString", VNum 1)])]);
       text := [] |} in
  ok malformed = false
  ∧ (apiFetch env (λ _, Ok malformed) (lit "/jobs") None).2 = Throw syntaxError
  ∧ JS.status syntaxError = None
  ∧ ok emptyError = false
  ∧ (apiFetch env (λ _, Ok emptyError) (lit "/jobs") None).2
      = Throw (ApiError (lit "Unexpected API error") 404)
  ∧ ok hiddenToString = false
  ∧ (apiFetch env (λ _, Ok hiddenToString) (lit "/jobs") None).2
      = Throw TypeError_primitive
  ∧ JS.status TypeError_primitive = None.
Proof. repeat split; vm_compute; reflexivity. Qed.

(** C4, as amended. For a response outside the range 200 to 299 whose body
    decodes, and whose [error] field, when the payload is a JSON object
    that has one, converts to a string, [apiFetch] throws an [ApiError]
    that carries the status of the response; its message is the [error]
    field converted to a string, when that string is not empty, the status
    text when there is no such field and the text is not empty, and the
    generic message in the remaining cases. Outside these conditions what
    is thrown does not carry the status of the response: it is the error
    of reading the body when the body does not decode, and the [TypeError]
    of the conversion when the [error] field does not convert. *)
Theorem apiFetch_failure_message env path init response :
  ok response = false →
  let outcome := (apiFetch env (λ _, Ok response) path init).2 in
  (∀ e, decode response = Throw e → outcome = Throw e)
  ∧ (∀ payload,
       decode response = Ok payload →
       (∀ e text,
          errorField response payload = Some e →
          String_ e = Ok text → text ≠ [] →
          outcome = Throw (ApiError text (Fetch.status response)))
       ∧ (errorField response payload = None → statusText response ≠ [] →
          outcome
          = Throw (ApiError (statusText response) (Fetch.status response)))
       ∧ ((∃ e, errorField response payload = Some e ∧ String_ e = Ok [])
          ∨ (errorField response payload = None ∧ statusText response = []) →
          outcome
          = Throw (ApiError (lit "Unexpected API error")
                     (Fetch.status response)))
       ∧ (∀ e t,
            errorField response payload = Some e →
            String_ e = Throw t →
            outcome = Throw TypeError_primitive)).
Proof.
  intros Hok outcome. subst outcome.
  destruct (apiFetch_run env (λ _, Ok response) path init)
    as (request & _ & _ & _ & ->). cbn [snd].
  split; [by intros e ->|].
  intros payload ->. rewrite Hok rejection_eq.
  destruct (errorField response payload) as [e|].
  - split; [|split; [|split]].
    + intros ? text [= <-] -> Htext. by destruct text.
    + done.
    + intros [(? & [= <-] & ->)|[? _]]; done.
    + intros ? t [= <-] Ht. rewrite Ht. by rewrite (String_throws _ _ Ht).
  - split; [|split; [|split]].
    + done.
    + intros _ Hs. by destruct (statusText response).
    + intros [(? & ? & _)|[_ ->]]; done.
    + done.
Qed.

Lemma apiFetch_failure_message_witness :
  let env := {| NEXT_PUBLIC_BACKEND_API := Some (lit "https://example.com");
                BACKEND_API := None |} in
  let payload := VObj [(lit "error", VStr (lit "Not found"))] in
  let response :=
    {| Fetch.status := 404; statusText := lit "Not Found";
       contentType := Some (lit "application/json");
       json := Ok payload; text := [] |} in
  (apiFetch env (λ _, Ok response) (lit "/jobs/7") None).2
  = Throw (ApiError (lit "Not found") 404).
Proof.
  intros env payload response.
  destruct (apiFetch_failure_message env (lit "/jobs/7") None response)
    as [_ Hdecoded]; [reflexivity|].
  destruct (Hdecoded payload) as [Hfield _]; [reflexivity|].
  by apply (Hfield (VStr (lit "Not found"))).
Defined.

(** The two failures the specification works out: a JSON error object, and
    a plain-text body, for which the message is the status text and not the
    body. *)
Example apiFetch_not_found :
  let env := {| NEXT_PUBLIC_BACKEND_API := Some (lit "https://example.com");
                BACKEND_API := None |} in
  (apiFetch env
     (λ _, Ok {| Fetch.status := 404; statusText := lit "Not Found";
                 contentType := Some (lit "application/json");
                 json := Ok (VObj [(lit "error", VStr (lit "Not found"))]);
                 text := [] |})
     (lit "/jobs/7") None).2
    = Throw (ApiError (lit "Not found") 404)
  ∧ (apiFetch env
       (λ _, Ok {| Fetch.status := 404; statusText := lit "Not Found";
                   contentType := None;
                   json := Throw (Error_ []);
                   text := lit "Internal Server Error" |})
       (lit "/jobs/7") None).2
    = Throw (ApiError (lit "Not Found") 404).
Proof. split; vm_compute; reflexivity. Qed.

End Transport.

(** ** The domain client *)

Section Client.

Import Api Spec Notions.

Implicit Types (env : ProcessEnv) (fetch : Request → result Response).

Lemma get_opt_get (v : value) (k : str) : get_opt v k = get v k.
Proof. by destruct v. Qed.

Lemma loginMessage_eq (data : value) :
  loginMessage data
  = String_ (if truthy (get_opt data (lit "message"))
             then get_opt data (lit "message")
             else VStr (lit "Failed to sign in")).
Proof.
  rewrite /loginMessage.
  destruct (get_opt data (lit "message")) as [| |[]|[]|[]| |]; done.
Qed.

Lemma loginAdmin_outcome env credentials response :
  (loginAdmin env (λ _, Ok response) credentials).2
  = match decode response with
    | Throw e => Throw e
    | Ok data =>
        if ok response then
          if loginFails data then
            match loginMessage data with
            | Ok message => Throw (ApiError message 400)
            | Throw e => Throw e
            end
          else Ok (get data (lit "admin"))
        else Throw (rejection response data)
    end.
Proof.
  rewrite /loginAdmin.
  destruct (apiFetch_run env (λ _, Ok response) (lit "/auth/admin/login")
              (post credentials)) as (request & _ & _ & _ & ->).
  destruct (decode response) as [data|e]; [|done].
  destruct (ok response); [|done]. cbn [bind].
  rewrite loginMessage_eq /loginFails /ApiError_new !get_opt_get.
  destruct (_ || _); [|done]. cbn [lift bind].
  by destruct (String_ _).
Qed.

(** Against C3 as stated: a login that fails at the transport level keeps
    the transport status and takes its message from the status line; the
    logical check is not reached. *)
Lemma loginAdmin_transport_failure_keeps_status :
  let env := {| NEXT_PUBLIC_BACKEND_API := Some (lit "https://example.com");
                BACKEND_API := None |} in
  let data := VObj [(lit "success", VBool false);
                    (lit "message", VStr (lit "bad credentials"))] in
  let response :=
    {| Fetch.status := 401; statusText := lit "Unauthorized";
       contentType := Some (lit "application/json");
       json := Ok data; text := [] |} in
  let credentials := VObj [(lit "username", VStr (lit "a"));
                           (lit "password", VStr (lit "b"))] in
  loginFails data = true
  ∧ (loginAdmin env (λ _, Ok response) credentials).2
      = Throw (ApiError (lit "Unauthorized") 401).
Proof. split; vm_compute; reflexivity. Qed.

(** C3, as amended. For a response in the range 200 to 299, whatever its
    status: when the body does not decode, [loginAdmin] throws the error of
    reading it. When it decodes, [loginAdmin] throws an [ApiError] with
    status 400 and the backend's message converted to a string, or the
    default one, exactly when [success] is falsy or [admin.username] is
    missing or falsy, and the message converts to a string; when the
    message does not convert, it throws the [TypeError] of the conversion,
    which has no status; and it returns the admin identity exactly when
    [success] is truthy and [admin.username] is present and truthy. *)
Theorem loginAdmin_logical_outcome env credentials response :
  ok response = true →
  let outcome := (loginAdmin env (λ _, Ok response) credentials).2 in
  (∀ e, decode response = Throw e → outcome = Throw e)
  ∧ (∀ data,
       decode response = Ok data →
       (∀ message,
          loginMessage data = Ok message →
          (outcome = Throw (ApiError message 400) ↔ loginFails data = true))
       ∧ ((∃ message, outcome = Throw (ApiError message 400))
          ↔ loginFails data = true ∧ ∃ message, loginMessage data = Ok message)
       ∧ (∀ e,
            loginFails data = true → loginMessage data = Throw e →
            outcome = Throw TypeError_primitive)
       ∧ (outcome = Ok (get data (lit "admin")) ↔ loginFails data = false)
       ∧ (loginFails data = false →
          truthy (get (get data (lit "admin")) (lit "username")) = true)).
Proof.
  intros Hok outcome. subst outcome. rewrite loginAdmin_outcome.
  split; [by intros e ->|]. intros data ->. rewrite Hok.
  destruct (loginFails data) eqn:Hfails.
  - split; [|split; [|split; [|split]]].
    + by intros message ->.
    + split.
      * intros [message Hthrown]. split; [done|].
        destruct (loginMessage data) as [text|e] eqn:Hmessage; [by exists text|].
        rewrite loginMessage_eq in Hmessage.
        apply String_throws in Hmessage as ->. done.
      * intros [_ [message ->]]. by exists message.
    + intros e _ Hmessage. rewrite Hmessage. f_equal.
      rewrite loginMessage_eq in Hmessage. by apply String_throws in Hmessage.
    + by destruct (loginMessage data).
    + done.
  - split; [|split; [|split; [|split]]].
    + done.
    + split; [by intros [? ?]|by intros [? _]].
    + done.
    + done.
    + intros _. rewrite /loginFails !get_opt_get in Hfails.
      apply orb_false_elim in Hfails as [_ Hu].
      by apply negb_false_iff in Hu.
Qed.

Lemma loginAdmin_logical_outcome_witness :
  let env := {| NEXT_PUBLIC_BACKEND_API := Some (lit "https://example.com");
                BACKEND_API := None |} in
  let data := VObj [(lit "success", VBool false);
                    (lit "message", VStr (lit "bad credentials"))] in
  let response :=
    {| Fetch.status := 200; statusText := lit "OK";
       contentType := Some (lit "application/json; charset=utf-8");
       json := Ok data; text := [] |} in
  let credentials := VObj [(lit "username", VStr (lit "a"));
                           (lit "password", VStr (lit "b"))] in
  (loginAdmin env (λ _, Ok response) credentials).2
    = Throw (ApiError (lit "bad credentials") 400).
Proof.
  intros env data response credentials.
  destruct (loginAdmin_logical_outcome env credentials response)
    as [_ Hdecoded]; [reflexivity|].
  destruct (Hdecoded data) as [Hmessage _]; [reflexivity|].
  by apply (Hmessage (lit "bad credentials")).
Defined.

(** The two logins the specification works out, and two responses in the
    range 200 to 299 that end otherwise: a body declared JSON that is not,
    and a message that is an object with a property [toString] of its
    own. *)
Example loginAdmin_examples :
  let env := {| NEXT_PUBLIC_BACKEND_API := Some (lit "https://example.com");
                BACKEND_API := None |} in
  let respond (body : result value) : Request → result Response :=
    λ _, Ok {| Fetch.status := 200; statusText := lit "OK";
               contentType := Some (lit "application/json");
               json := body; text := [] |} in
  let credentials := VObj [(lit "username", VStr (lit "a"));
                           (lit "password", VStr (lit "b"))] in
  let syntaxError :=
    mkExn (lit "SyntaxError") (lit "Unexpected end of JSON input") None in
  (loginAdmin env
     (respond (Ok (VObj [(lit "success", VBool false);
                         (lit "message", VStr (lit "bad credentials"))])))
     credentials).2
    = Throw (ApiError (lit "bad credentials") 400)
  ∧ (loginAdmin env
       (respond (Ok (VObj [(lit "success", VBool true);
                           (lit "admin",
                            VObj [(lit "username", VStr (lit "a"))])])))
       credentials).2
    = Ok (VObj [(lit "username", VStr (lit "a"))])
  ∧ (loginAdmin env (respond (Throw syntaxError)) credentials).2
    = Throw syntaxError
  ∧ (loginAdmin env
       (respond (Ok (VObj [(lit "success", VBool false);
                           (lit "message",
                            VObj [(lit "toString", VNull)])])))
       credentials).2
    = Throw TypeError_primitive.
Proof. repeat split; vm_compute; reflexivity. Qed.

Lemma searchParams_offset (limit : option Z) (offset : Z) :
  searchParams {| limit := limit; offset := Some offset |}
  = searchParams {| limit := limit; offset := None |}
      ++ [(lit "offset", Number_toString offset)].
Proof.
  rewrite /searchParams /=. destruct limit as [l|]; [|done].
  by destruct (negb _).
Qed.

Lemma searchParams_no_offset (limit : option Z) :
  searchParams {| limit := limit; offset := None |}
  = match limit with
    | Some l => if (l =? 0)%Z then [] else [(lit "limit", Number_toString l)]
    | None => []
    end.
Proof.
  rewrite /searchParams /=. destruct limit as [l|]; [|done].
  by destruct (l =? 0)%Z.
Qed.



End Client.

(** ** The session store *)

Section SessionStore.

Import Session Spec.

Context `{!JsonParser}.

(** The mount effect never throws and always sets the hydrated flag. *)
Lemma hydrate_completes (w : world) :
  (hydrate w).1 = Ok ()
  ∧ win (hydrate w).2 = win w
  ∧ hydrated (store (hydrate w).2) = true.
Proof.
  rewrite /hydrate /try_catch_finally /bind /hasWindow /getItem.
  destruct w as [[|[e|items]] st c]; cbn; [done..|].
  destruct (items !! STORAGE_KEY) as [[|ch stored]|]; [done| |done].
  destruct (JSON_parse (ch :: stored)) as [parsed|e]; [|done].
  by destruct (truthy _).
Qed.

(** C6. Whatever the persisted storage holds, the hydrate transition of a
    fresh store does not throw and ends hydrated, in one of the two
    hydrated states; when reading storage or parsing the record fails, it
    logs one warning and ends hydrated and unauthenticated. *)
Theorem hydrate_never_throws (w : window) :
  (hydrate (fresh w)).1 = Ok ()
  ∧ hydrated (store (hydrate (fresh w)).2) = true
  ∧ (store (hydrate (fresh w)).2 = unauthenticated
     ∨ authenticated (store (hydrate (fresh w)).2))
  ∧ (∀ e, restoreFails w e →
       store (hydrate (fresh w)).2 = unauthenticated
       ∧ console (hydrate (fresh w)).2 = [(warning, e)]).
Proof.
  destruct (hydrate_completes (fresh w)) as (Hok & _ & Hhyd).
  split; [done|]. split; [done|]. split.
  - clear Hok Hhyd.
    rewrite /hydrate /try_catch_finally /bind /hasWindow /getItem /authenticated.
    destruct w as [|[e|items]]; cbn; [by left..|].
    destruct (items !! STORAGE_KEY) as [[|ch stored]|]; [by left| |by left].
    destruct (JSON_parse (ch :: stored)) as [parsed|e]; [|by left].
    destruct (truthy (get_opt parsed (lit "username"))) eqn:Hu; [|by left].
    right. split; [done|]. cbn.
    destruct parsed as [| | | | | |fields]; done.
  - intros e Hfail. clear Hok Hhyd.
    rewrite /hydrate /try_catch_finally /bind /hasWindow /getItem.
    destruct Hfail as [e|items stored e Hitem Hne Hparse]; cbn; [done|].
    rewrite Hitem. destruct stored as [|ch stored]; [done|].
    by rewrite Hparse.
Qed.

Lemma hydrate_absent_record (w : window) :
  match w with
  | NoWindow => True
  | Window (Denied _) => True
  | Window (Storage items) => items !! STORAGE_KEY = None
  end →
  store (hydrate (fresh w)).2 = unauthenticated.
Proof.
  rewrite /hydrate /try_catch_finally /bind /hasWindow /getItem.
  destruct w as [|[e|items]]; cbn; [done..|]. by intros ->.
Qed.

(** Against C7 as stated: [setSession] with a session does not always
    persist it and end hydrated and authenticated. On a store that is not
    hydrated yet it leaves the hydrated flag unset; where the browser
    denies access to storage it throws and sets no identity; outside the
    browser it returns and changes nothing. *)
Lemma setSession_not_always_authenticated :
  let session := AdminSession (lit "x") in
  let denied := mkExn (lit "SecurityError") (lit "The operation is insecure.") None in
  let hydratedStore := {| admin := VNull; hydrated := true |} in
  (saveSession session (fresh (Window (Storage ∅)))).1 = Ok ()
  ∧ hydrated (store (saveSession session (fresh (Window (Storage ∅)))).2) = false
  ∧ isAuthenticated (store (saveSession session (fresh (Window (Storage ∅)))).2)
    = false
  ∧ saveSession session
      {| win := Window (Denied denied); store := hydratedStore; console := [] |}
    = (Throw denied,
       {| win := Window (Denied denied); store := hydratedStore; console := [] |})
  ∧ saveSession session
      {| win := NoWindow; store := hydratedStore; console := [] |}
    = (Ok (), {| win := NoWindow; store := hydratedStore; console := [] |})
  ∧ isAuthenticated hydratedStore = false.
Proof. repeat split. Qed.

(** C7, as amended. In a browser with working storage, [setSession] with
    a session object persists its JSON text under the storage key and
    makes it the current identity, and [setSession(null)] deletes the
    record and clears the identity; neither touches the hydrated flag, so
    the store is afterwards in the authenticated state, and in the
    hydrated and unauthenticated one, exactly when it was hydrated before.
    Where the browser denies access to storage [setSession] throws and
    changes nothing, and outside the browser it returns and changes
    nothing. After [setSession({username})] and then [setSession(null)], a
    fresh hydrate ends hydrated and unauthenticated, in every
    environment. *)
Theorem setSession_roundtrip :
  (∀ items st c fields,
     saveSession (VObj fields)
       {| win := Window (Storage items); store := st; console := c |}
     = (Ok (),
        {| win := Window (Storage
                    (<[STORAGE_KEY := JSON_stringify (VObj fields)]> items));
           store := {| admin := VObj fields; hydrated := hydrated st |};
           console := c |}))
  ∧ (∀ items st c fields,
       authenticated
         (store (saveSession (VObj fields)
                   {| win := Window (Storage items); store := st;
                      console := c |}).2)
       ↔ hydrated st = true)
  ∧ (∀ items st c,
       saveSession VNull
         {| win := Window (Storage items); store := st; console := c |}
       = (Ok (),
          {| win := Window (Storage (delete STORAGE_KEY items));
             store := {| admin := VNull; hydrated := hydrated st |};
             console := c |}))
  ∧ (∀ items st c,
       store (saveSession VNull
                {| win := Window (Storage items); store := st;
                   console := c |}).2
       = unauthenticated
       ↔ hydrated st = true)
  ∧ (∀ e st c session,
       saveSession session
         {| win := Window (Denied e); store := st; console := c |}
       = (Throw e, {| win := Window (Denied e); store := st; console := c |}))
  ∧ (∀ st c session,
       saveSession session {| win := NoWindow; store := st; console := c |}
       = (Ok (), {| win := NoWindow; store := st; console := c |}))
  ∧ (∀ w username,
       let w1 := (saveSession (AdminSession username) w).2 in
       let w2 := (saveSession VNull w1).2 in
       (hydrate (fresh (win w2))).1 = Ok ()
       ∧ store (hydrate (fresh (win w2))).2 = unauthenticated).
Proof.
  split; [done|]. split.
  { intros items st c fields. rewrite /authenticated. cbn.
    split; [by intros [? _]|by intros ->]. }
  split; [done|]. split.
  { intros items [a h] c. rewrite /unauthenticated. cbn. split.
    - by intros [= ->].
    - by intros ->. }
  split.
  { intros e st c session. rewrite /saveSession /bind /hasWindow. cbn.
    by destruct (truthy session). }
  split; [done|].
  intros w username w1 w2. split; [apply hydrate_completes|].
  apply hydrate_absent_record. subst w1 w2.
  destruct w as [[|[e|items]] st c]; cbn; [done..|].
  apply lookup_delete_eq.
Qed.

End SessionStore.

Lemma hydrate_never_throws_witness :
  let items : gmap str str := {[ Session.STORAGE_KEY := lit "{bad" ]} in
  let syntaxError :=
    mkExn (lit "SyntaxError") (lit "Unexpected end of JSON input") None in
  Session.store
    (@Session.hydrate JSON_parse_rejecting
       (Session.fresh (Session.Window (Session.Storage items)))).2
    = Spec.unauthenticated
  ∧ Session.console
      (@Session.hydrate JSON_parse_rejecting
         (Session.fresh (Session.Window (Session.Storage items)))).2
    = [(Spec.warning, syntaxError)].
Proof.
  intros items syntaxError.
  apply (@hydrate_never_throws JSON_parse_rejecting
           (Session.Window (Session.Storage items))).
  by apply (@Spec.record_malformed JSON_parse_rejecting items (lit "{bad")).
Defined.

(** ** The initials of the admin *)

Section Initials.

Import Session Spec.

Implicit Types (s cur : str) (ps : list str).

Lemma join_nil ps : join [] ps = mjoin ps.
Proof.
  induction ps as [|p [|q ps] IH]; [done| |].
  - by rewrite /= app_nil_r.
  - change (join [] (p :: q :: ps)) with (p ++ [] ++ join [] (q :: ps)).
    by rewrite IH.
Qed.

Lemma mjoin_filter_nonempty ps :
  mjoin (filter (λ p : str, p ≠ []) ps) = mjoin ps.
Proof.
  induction ps as [|p ps IH]; [done|].
  rewrite filter_cons. destruct (decide (p ≠ [])) as [Hp|Hp]; cbn.
  - by rewrite IH.
  - apply dec_stable in Hp. by rewrite Hp IH.
Qed.

(** The pieces of a split at runs of separators hold no separator, and
    put together they are the string without its separators. *)
Lemma splitRuns_pieces (isSep : N → bool) s inRun cur :
  Forall (λ c, isSep c = false) cur →
  Forall (Forall (λ c, isSep c = false)) (splitRuns isSep inRun cur s)
  ∧ mjoin (splitRuns isSep inRun cur s)
    = reverse cur ++ filter (λ c, isSep c = false) s.
Proof.
  revert inRun cur. induction s as [|c s IH]; intros inRun cur Hcur.
  - cbn. split; [|by rewrite !app_nil_r].
    constructor; [by apply Forall_reverse|done].
  - rewrite filter_cons. cbn [splitRuns]. destruct (isSep c) eqn:Hc.
    + case_decide; [done|]. destruct inRun.
      * by apply IH.
      * destruct (IH true [] (Forall_nil_2 _)) as [Hall Hjoin].
        split; [constructor; [by apply Forall_reverse|done]|].
        cbn. by rewrite Hjoin.
    + case_decide; [|done].
      destruct (IH false (c :: cur)) as [Hall Hjoin]; [by constructor|].
      split; [done|]. by rewrite Hjoin reverse_cons -app_assoc.
Qed.

Lemma parts_pieces s :
  Forall (λ p : str, p ≠ [] ∧ Forall (λ c, isSeparator c = false) p) (parts s)
  ∧ mjoin (parts s) = filter (λ c, isSeparator c = false) s.
Proof.
  destruct (splitRuns_pieces isSeparator s false [] (Forall_nil_2 _))
    as [Hall Hjoin].
  rewrite /parts mjoin_filter_nonempty Hjoin. split; [|done].
  apply Forall_forall. intros p [Hp Hin]%list_elem_of_filter. split; [done|].
  rewrite Forall_forall in Hall. by apply Hall.
Qed.

Lemma or_str_length_le s (n : nat) :
  (1 ≤ n)%nat → (length s ≤ n)%nat → (length (or_str s (lit "A")) ≤ n)%nat.
Proof. by destruct s. Qed.

Lemma mjoin_unit_length (f : str → str) ps :
  (∀ p, p ∈ ps → length (f p) = 1%nat) →
  length (mjoin (f <$> ps)) = length ps.
Proof.
  induction ps as [|p ps IH]; intros Hone; [done|].
  cbn. rewrite length_app Hone; [apply list_elem_of_here|].
  rewrite IH; [|done]. intros q Hq. apply Hone. by apply list_elem_of_further.
Qed.

Context `{!CaseMapping}.

Lemma getAdminInitials_unfold (username : option str) :
  getAdminInitials username
  = or_str (mjoin ((λ part : str, toUpperCase (charAt part 0))
                     <$> take 2 (parts (default [] username))))
      (lit "A").
Proof.
  rewrite /getAdminInitials /parts.
  destruct (default [] username) as [|c s] eqn:Hu; [done|].
  by rewrite join_nil.
Qed.

(** C10, as amended. [getAdminInitials] never returns the empty string. It
    returns [A] when the user name is missing or has no non-empty part
    between runs of whitespace, dots, underscores and hyphens, and
    otherwise the upper-case forms of the first characters of its first
    two parts at most. The result has at most two characters when each of
    these upper-case forms is a single character. *)
Theorem getAdminInitials_initials (username : option str) :
  (∀ c, toUpperCase [c] ≠ []) →
  getAdminInitials username ≠ []
  ∧ getAdminInitials None = lit "A"
  ∧ getAdminInitials (Some []) = lit "A"
  ∧ Forall (λ p : str, p ≠ [] ∧ Forall (λ c, isSeparator c = false) p)
      (parts (default [] username))
  ∧ mjoin (parts (default [] username))
    = filter (λ c, isSeparator c = false) (default [] username)
  ∧ (parts (default [] username) = [] → getAdminInitials username = lit "A")
  ∧ (parts (default [] username) ≠ [] →
     getAdminInitials username
     = mjoin ((λ part : str, toUpperCase (charAt part 0))
                <$> take 2 (parts (default [] username))))
  ∧ ((∀ part, part ∈ take 2 (parts (default [] username)) →
        length (toUpperCase (charAt part 0)) = 1%nat) →
     (length (getAdminInitials username) ≤ 2)%nat).
Proof.
  intros Hupper.
  destruct (parts_pieces (default [] username)) as [Hall Hjoin].
  rewrite getAdminInitials_unfold.
  split; [by apply or_str_nonempty|]. split; [done|]. split; [done|].
  split; [done|]. split; [done|].
  split; [by intros ->|]. split.
  - intros Hne. destruct (parts (default [] username)) as [|p ps]; [done|].
    apply Forall_cons in Hall as [[Hp _] _].
    destruct p as [|c p]; [done|]. cbn.
    pose proof (Hupper c). by destruct (toUpperCase [c]).
  - intros Hone. apply or_str_length_le; [lia|].
    rewrite mjoin_unit_length; [done|].
    rewrite length_take. lia.
Qed.

End Initials.

(** Against C10 as stated: the upper-case form of sharp s has two letters,
    so the initials of two parts can have four. *)
Lemma getAdminInitials_four_letters :
  @Session.getAdminInitials toUpperCase_latin1 (Some [223; 32; 223])
    = lit "SSSS"
  ∧ length (@Session.getAdminInitials toUpperCase_latin1 (Some [223; 32; 223]))
    = 4%nat.
Proof. split; vm_compute; reflexivity. Qed.

Lemma toUpperCase_latin1_nonempty (c : N) : toUpperCase_latin1 [c] ≠ [].
Proof.
  rewrite /toUpperCase_latin1 /upperLatin1 /= app_nil_r.
  repeat case_match; done.
Qed.

Lemma getAdminInitials_initials_witness :
  @Session.getAdminInitials toUpperCase_latin1 (Some (lit "john.doe-smith"))
  = mjoin ((λ part : str, toUpperCase_latin1 (charAt part 0))
             <$> take 2 (Spec.parts (lit "john.doe-smith"))).
Proof.
  apply (@getAdminInitials_initials toUpperCase_latin1
           (Some (lit "john.doe-smith")) toUpperCase_latin1_nonempty).
  by vm_compute.
Defined.

Example getAdminInitials_examples :
  @Session.getAdminInitials toUpperCase_latin1 (Some (lit "john.doe-smith"))
    = lit "JD"
  ∧ @Session.getAdminInitials toUpperCase_latin1 (Some (lit "admin")) = lit "A"
  ∧ @Session.getAdminInitials toUpperCase_latin1 (Some (lit " ._-")) = lit "A"
  ∧ @Session.getAdminInitials toUpperCase_latin1 None = lit "A".
Proof. repeat split; vm_compute; reflexivity. Qed.

(** ** The job payload *)

Section JobPayload.

Import Api JobsPage.

Implicit Types (s t : str) (values : JobFormValues).

Lemma split_nonempty (sep : N) s : split sep s ≠ [].
Proof.
  destruct s as [|c s]; [done|]. cbn [split].
  destruct (c =? sep); [done|]. by destruct (split sep s).
Qed.

Lemma split_join (sep : N) s : join [sep] (split sep s) = s.
Proof.
  induction s as [|c s IH]; [done|]. cbn [split].
  pose proof (split_nonempty sep s) as Hne.
  destruct (split sep s) as [|p ps]; [done|].
  destruct (c =? sep) eqn:Hc.
  - apply N.eqb_eq in Hc as ->.
    change (join [sep] ([] :: p :: ps)) with ([] ++ [sep] ++ join [sep] (p :: ps)).
    by rewrite IH.
  - destruct ps as [|q ps]; [by rewrite -IH|].
    change (join [sep] ((c :: p) :: q :: ps))
      with (c :: (p ++ [sep] ++ join [sep] (q :: ps))).
    by rewrite -IH.
Qed.

Lemma split_pieces (sep : N) s : Forall (λ p : str, sep ∉ p) (split sep s).
Proof.
  induction s as [|c s IH]; cbn [split].
  - constructor; [apply not_elem_of_nil|done].
  - destruct (c =? sep) eqn:Hc.
    + constructor; [apply not_elem_of_nil|done].
    + apply N.eqb_neq in Hc.
      destruct (split sep s) as [|p ps].
      * constructor; [|done]. apply not_elem_of_cons. split; [congruence|].
        apply not_elem_of_nil.
      * apply Forall_cons in IH as [Hp Hps]. constructor; [|done].
        apply not_elem_of_cons. split; [congruence|done].
Qed.

(** What [trim] returns lies inside its argument and neither begins nor
    ends with white space. *)
Lemma trim_inside s : ∃ a b, s = a ++ trim s ++ b.
Proof.
  destruct (dropWhile_split isWhiteSpace s) as (a & Ha & _).
  destruct (dropWhileEnd_split isWhiteSpace (dropWhile isWhiteSpace s))
    as (b & Hb & _).
  exists a, b. by rewrite /trim -Hb.
Qed.

Lemma trim_head s c : head (trim s) = Some c → isWhiteSpace c = false.
Proof.
  rewrite /trim. intros Hc. apply dropWhileEnd_head in Hc.
  by apply dropWhile_head in Hc.
Qed.

Lemma trim_last s c : last (trim s) = Some c → isWhiteSpace c = false.
Proof. apply dropWhileEnd_last. Qed.

Lemma techArray_eq values :
  techArray values
  = filter (λ t : str, t ≠ []) (trim <$> split 44 (tech values)).
Proof.
  rewrite /techArray. apply list_filter_iff. intros t.
  destruct t; cbn; [split; [lia|done]|split; [done|lia]].
Qed.

(** C9. The tech field of the payload is the comma-separated string of the
    form split at each comma, every entry trimmed and the empty entries
    removed; it is a function of the form values alone, and it is what the
    request of [createJob] carries. *)
Theorem techArray_payload values :
  get (payload values) (lit "tech") = VArr (VStr <$> techArray values)
  ∧ techArray values
    = filter (λ t : str, t ≠ []) (trim <$> split 44 (tech values))
  ∧ join (lit ",") (split 44 (tech values)) = tech values
  ∧ Forall (λ p : str, 44 ∉ p) (split 44 (tech values))
  ∧ (∀ t, t ∈ techArray values
          ↔ (t ≠ [] ∧ ∃ p, p ∈ split 44 (tech values) ∧ t = trim p))
  ∧ Forall (λ t : str,
              t ≠ [] ∧ (44 ∉ t)
              ∧ (∀ c, head t = Some c → isWhiteSpace c = false)
              ∧ (∀ c, last t = Some c → isWhiteSpace c = false))
      (techArray values)
  ∧ (∀ env fetch selectedJob, ∃ request,
       (handleSubmitJob env fetch create selectedJob values).1 = [request]
       ∧ url request = API_BASE env ++ lit "/jobs"
       ∧ method request = Some (lit "POST")
       ∧ body request = Some (JSON_stringify (payload values))).
Proof.
  assert (∀ t, t ∈ techArray values
               ↔ (t ≠ [] ∧ ∃ p, p ∈ split 44 (tech values) ∧ t = trim p))
    as Hmem.
  { intros t. rewrite techArray_eq list_elem_of_filter list_elem_of_fmap.
    split.
    - intros [Ht (p & -> & Hp)]. split; [done|]. by exists p.
    - intros [Ht (p & Hp & ->)]. split; [done|]. by exists p. }
  split; [done|]. split; [apply techArray_eq|].
  split; [apply (split_join 44)|]. split; [apply split_pieces|].
  split; [done|]. split.
  - apply Forall_forall. intros t [Ht (p & Hp & ->)]%Hmem.
    split; [done|]. split; [|split; [apply trim_head|apply trim_last]].
    intros Hin. pose proof (split_pieces 44 (tech values)) as Hall.
    rewrite Forall_forall in Hall. apply (Hall p Hp).
    destruct (trim_inside p) as (a & b & Hab). rewrite Hab.
    apply elem_of_app. right. apply elem_of_app. by left.
  - intros env fetch selectedJob. rewrite /handleSubmitJob /createJob.
    destruct (apiFetch_run env fetch (lit "/jobs") (post (payload values)))
      as (request & Hurl & Hmethod & Hbody & ->).
    exists request. split; [|done].
    destruct (fetch request) as [response|]; [|done].
    destruct (decode response) as [data|]; [|done].
    destruct (ok response); [|done]. cbn [bind lift app].
    by destruct (prop data (lit "data")).
Qed.

End JobPayload.

(** ** More on the transport adapter *)

Section TransportMore.

Import Api Spec Notions.

Implicit Types (env : ProcessEnv) (fetch : Request → result Response).

Lemma bind_trace {A B} (m : IO A) (f : A → IO B) :
  (∀ a, (f a).1 = []) → (bind m f).1 = m.1.
Proof.
  intros Hf. destruct m as [t [a|e]]; [|done]. cbn.
  specialize (Hf a). destruct (f a) as [t' r]. cbn in Hf. subst t'.
  cbn. by rewrite app_nil_r.
Qed.

Lemma Headers_set_content_type (h : Headers) :
  Headers_set h (lit "Content-Type") (lit "application/json")
  = <[lit "content-type" := lit "application/json"]> h.
Proof.
  rewrite /Headers_set.
  assert (asciiLower <$> lit "Content-Type" = lit "content-type") as ->
    by (vm_compute; reflexivity).
  assert (normalizeValue (lit "application/json") = lit "application/json")
    as -> by (vm_compute; reflexivity).
  done.
Qed.

Lemma Headers_has_content_type (h : Headers) :
  Headers_has h (lit "Content-Type")
  = bool_decide (is_Some (h !! lit "content-type")).
Proof.
  rewrite /Headers_has.
  assert (asciiLower <$> lit "Content-Type" = lit "content-type") as ->
    by (vm_compute; reflexivity).
  done.
Qed.

Lemma bind_lift_ok {A B} (a : A) (f : A → IO B) : bind (lift (Ok a)) f = f a.
Proof. rewrite /bind /lift. by destruct (f a). Qed.

(** The request that [apiFetch] sends. *)
Lemma apiFetch_sent env fetch path init :
  let given := Headers_new (default [] (init_headers <$> init)) in
  let wanted :=
    negb (default false (skipContentType <$> init))
    && negb (bool_decide (default [] (init ≫= init_body) = [])) in
  (apiFetch env fetch path init).1
  = [ {| url := API_BASE env ++ normalizedPath path;
         method := init ≫= init_method;
         headers :=
           if wanted && negb (Headers_has given (lit "Content-Type"))
           then <[lit "content-type" := lit "application/json"]> given
           else given;
         body := init ≫= init_body;
         cache := Some (lit "no-store") |} ].
Proof.
  intros given wanted.
  rewrite /apiFetch resolveUrl_ok. cbn [bind lift app].
  fold given. fold wanted. rewrite Headers_set_content_type.
  destruct (fetch _) as [response|e]; [|done].
  cbn [bind lift app]. destruct (decode response) as [payload|e]; [|done].
  cbn [bind lift app]. destruct (negb (ok response)); [|done].
  by destruct (if _ && _ && _ then _ else _).
Qed.

(** X1. Every call of [apiFetch] issues exactly one request, whatever the
    outcome: to the API base followed by the normalized path, with the
    caller's method and body, and with caching disabled. There is no retry
    and no call that skips the network. *)
Theorem apiFetch_exactly_one_request env fetch path init :
  ∃ request,
    (apiFetch env fetch path init).1 = [request]
    ∧ url request = API_BASE env ++ normalizedPath path
    ∧ method request = init ≫= init_method
    ∧ body request = init ≫= init_body
    ∧ cache request = Some (lit "no-store").
Proof.
  pose proof (apiFetch_sent env fetch path init) as Hsent. cbn zeta in Hsent.
  rewrite Hsent. by eexists.
Qed.

(** The names of a [Headers] object are the given names in lower case. *)
Lemma Headers_new_names (init : list (str * str)) (name : str) :
  is_Some (Headers_new init !! name)
  ↔ ∃ k v, (k, v) ∈ init ∧ asciiLower <$> k = name.
Proof.
  rewrite /Headers_new.
  assert (∀ h : Headers,
            is_Some (foldl (λ h (kv : str * str), Headers_append h kv.1 kv.2)
                       h init !! name)
            ↔ is_Some (h !! name)
              ∨ ∃ k v, (k, v) ∈ init ∧ asciiLower <$> k = name) as Hfold.
  { induction init as [|[k v] init IH]; intros h.
    - cbn. split; [by left|]. intros [?|(? & ? & Hin & _)]; [done|].
      by apply elem_of_nil in Hin.
    - cbn [foldl fst snd]. rewrite IH. clear IH.
      assert (is_Some (Headers_append h k v !! name)
              ↔ is_Some (h !! name) ∨ asciiLower <$> k = name) as ->.
      { rewrite /Headers_append.
        destruct (h !! (asciiLower <$> k)) as [values|] eqn:Hk;
          rewrite lookup_insert_is_Some; split.
        - intros [?|[_ ?]]; [by right|by left].
        - intros [?|?]; [|by left].
          destruct (decide (asciiLower <$> k = name)); [by left|by right].
        - intros [?|[_ ?]]; [by right|by left].
        - intros [?|?]; [|by left].
          destruct (decide (asciiLower <$> k = name)); [by left|by right]. }
      split.
      + intros [[?|?]|(k' & v' & Hin & ?)].
        * by left.
        * right. exists k, v. split; [apply list_elem_of_here|done].
        * right. exists k', v'. split; [by apply list_elem_of_further|done].
      + intros [?|(k' & v' & Hin & ?)]; [by left; left|].
        apply elem_of_cons in Hin as [[= -> ->]|Hin].
        * left. by right.
        * right. by exists k', v'. }
  rewrite Hfold lookup_empty. split.
  - intros [[? [=]]|?]; done.
  - by right.
Qed.

(** X2. For a caller whose headers are valid, the request carries a
    [Content-Type] header exactly when the caller supplied one, in any
    letter case, or a non-empty body is sent without the skip flag; the
    header that [apiFetch] adds has the value [application/json]; every
    header of the caller is kept with its value, and no other header is
    added. *)
Theorem apiFetch_content_type env fetch path init :
  Forall (λ kv : str * str,
            validHeaderName kv.1 && validHeaderValue kv.2 = true)
    (default [] (init_headers <$> init)) →
  let given := Headers_new (default [] (init_headers <$> init)) in
  let wanted :=
    negb (default false (skipContentType <$> init))
    && negb (bool_decide (default [] (init ≫= init_body) = [])) in
  ∃ request,
    (apiFetch env fetch path init).1 = [request]
    ∧ (is_Some (headers request !! lit "content-type")
       ↔ wanted = true
         ∨ ∃ k v, (k, v) ∈ default [] (init_headers <$> init)
                  ∧ asciiLower <$> k = lit "content-type")
    ∧ headers request
      = (if wanted && negb (Headers_has given (lit "Content-Type"))
         then <[lit "content-type" := lit "application/json"]> given
         else given)
    ∧ (∀ name value,
         given !! name = Some value → headers request !! name = Some value)
    ∧ (∀ name,
         name ≠ lit "content-type" → headers request !! name = given !! name).
Proof.
  intros _ given wanted.
  pose proof (apiFetch_sent env fetch path init) as Hsent. cbn zeta in Hsent.
  rewrite Hsent. clear Hsent.
  match goal with |- ∃ r, [?x] = [r] ∧ _ => exists x end.
  split; [done|]. cbn [headers].
  fold given. fold wanted. rewrite Headers_has_content_type.
  pose proof (Headers_new_names (default [] (init_headers <$> init))
                (lit "content-type")) as Hnames. fold given in Hnames.
  rewrite -Hnames. clear Hnames. clearbody wanted given.
  destruct wanted; cbn [andb].
  - destruct (bool_decide (is_Some (given !! lit "content-type"))) eqn:Hhas;
      cbn [negb].
    + split; [split; [by left|]|].
      * intros _. by apply bool_decide_eq_true in Hhas.
      * split; [done|]. by split.
    + apply bool_decide_eq_false in Hhas.
      split; [|split; [done|split]].
      * rewrite lookup_insert_eq. split; [by left|by eexists].
      * intros name value Hname. rewrite -Hname. apply lookup_insert_ne.
        intros <-. apply Hhas. by exists value.
      * intros name Hname. apply lookup_insert_ne. congruence.
  - split; [|by split]. split; [by right|]. intros [?|?]; done.
Qed.

Lemma apiFetch_content_type_witness :
  let env := {| NEXT_PUBLIC_BACKEND_API := Some (lit "https://example.com");
                BACKEND_API := None |} in
  let init :=
    Some {| init_method := Some (lit "POST");
            init_headers := [(lit "Accept", lit "text/html");
                             (lit "X-Trace", lit " 7 ");
                             (lit "accept", lit "application/json")];
            init_body := Some (lit "{}"); skipContentType := false |} in
  ∃ request,
    (apiFetch env (λ _, Throw (Error_ [])) (lit "/jobs") init).1 = [request]
    ∧ headers request !! lit "accept"
      = Some (lit "text/html, application/json").
Proof.
  intros env init.
  destruct (apiFetch_content_type env (λ _, Throw (Error_ [])) (lit "/jobs")
              init) as (request & Hsent & _ & _ & Hkept & _).
  { repeat constructor. }
  exists request. split; [done|]. apply Hkept. vm_compute. reflexivity.
Defined.

(** X3. For a response whose body decodes, [apiFetch] returns the decoded
    payload unchanged when the status is in the range 200 to 299, and
    otherwise throws. What it throws is an [ApiError] that carries the
    status of the response, which lies outside that range, and a message
    that is not empty, unless the payload has an [error] field that does
    not convert to a string, as an object with a property [toString] of
    its own: then it is the [TypeError] of the conversion. *)
Theorem apiFetch_error_shape env path init response payload :
  decode response = Ok payload →
  ((apiFetch env (λ _, Ok response) path init).2 = Ok payload
   ↔ ok response = true)
  ∧ (∀ e, (apiFetch env (λ _, Ok response) path init).2 = Throw e →
       ok response = false
       ∧ ((∀ field text,
             errorField response payload = Some field →
             String_ field = Ok text →
             name e = lit "ApiError"
             ∧ JS.status e = Some (Fetch.status response)
             ∧ message e ≠ [])
          ∧ (errorField response payload = None →
             name e = lit "ApiError"
             ∧ JS.status e = Some (Fetch.status response)
             ∧ message e ≠ [])
          ∧ (∀ field t,
               errorField response payload = Some field →
               String_ field = Throw t →
               e = TypeError_primitive)))
  ∧ (∀ fields,
       errorField response payload = Some (VObj fields) →
       (String_ (VObj fields) = Throw TypeError_primitive
        ↔ has_key (lit "toString") (VObj fields) = true)).
Proof.
  intros Hdecode.
  destruct (apiFetch_run env (λ _, Ok response) path init)
    as (request & _ & _ & _ & ->).
  rewrite Hdecode. cbn [snd]. split; [|split].
  - destruct (ok response); [done|]. split; done.
  - intros e. destruct (ok response); [done|]. intros [= <-].
    split; [done|]. rewrite rejection_eq.
    destruct (errorField response payload) as [field|].
    + split; [|split; [done|]].
      * intros ? text [= <-] ->. repeat split. by apply or_str_nonempty.
      * intros ? t [= <-] Ht. rewrite Ht. by apply String_throws in Ht.
    + split; [done|]. split; [|done].
      intros _. repeat split. by apply or_str_nonempty.
  - intros fields _. rewrite String_object.
    by destruct (has_key _ _).
Qed.

Lemma apiFetch_error_shape_witness :
  let env := {| NEXT_PUBLIC_BACKEND_API := Some (lit "https://example.com");
                BACKEND_API := None |} in
  let response :=
    {| Fetch.status := 503; statusText := [];
       contentType := Some (lit "text/html");
       json := Throw (Error_ []); text := lit "<html>" |} in
  (apiFetch env (λ _, Ok response) (lit "jobs") None).2
    = Ok (VStr (lit "<html>"))
  ↔ ok response = true.
Proof.
  intros env response.
  apply (apiFetch_error_shape env (lit "jobs") None response
           (VStr (lit "<html>"))).
  reflexivity.
Defined.

(** X4. A failure of the network and a failure to read the body pass
    through [apiFetch] as they are, not wrapped in an [ApiError]; the body
    failure is thrown also when the status is in the range 200 to 299, as
    for an empty body declared to be JSON. *)
Theorem apiFetch_passes_failures_through env path init response e :
  decode response = Throw e →
  (apiFetch env (λ _, Throw e) path init).2 = Throw e
  ∧ (apiFetch env (λ _, Ok response) path init).2 = Throw e.
Proof.
  intros Hdecode. split.
  - by destruct (apiFetch_run env (λ _, Throw e) path init)
      as (request & _ & _ & _ & ->).
  - destruct (apiFetch_run env (λ _, Ok response) path init)
      as (request & _ & _ & _ & ->).
    by rewrite Hdecode.
Qed.

Lemma apiFetch_passes_failures_through_witness :
  let env := {| NEXT_PUBLIC_BACKEND_API := Some (lit "https://example.com");
                BACKEND_API := None |} in
  let e := mkExn (lit "SyntaxError") (lit "Unexpected end of JSON input") None in
  let response :=
    {| Fetch.status := 204; statusText := lit "No Content";
       contentType := Some (lit "application/json");
       json := Throw e; text := [] |} in
  (apiFetch env (λ _, Throw e) (lit "/jobs/7") Client.delete_).2 = Throw e
  ∧ (apiFetch env (λ _, Ok response) (lit "/jobs/7") Client.delete_).2 = Throw e.
Proof.
  intros env e response.
  apply (apiFetch_passes_failures_through env (lit "/jobs/7") Client.delete_
           response e).
  reflexivity.
Defined.

End TransportMore.

(** ** More on the domain client *)

Section ClientMore.

Import Api Client Notions.

Implicit Types (env : ProcessEnv) (fetch : Request → result Response).

Lemma unreserved_ascii (c : N) : unreserved c = true → c < 128 ∧ c ≠ 32.
Proof.
  rewrite /unreserved /isAlnum.
  rewrite !orb_true_iff !andb_true_iff !N.leb_le !N.eqb_eq. lia.
Qed.

Lemma urlencode_unreserved (s : str) :
  Forall (λ c, unreserved c = true) s → urlencode s = s.
Proof.
  rewrite /urlencode. induction 1 as [|c s Hc _ IH]; [done|].
  destruct (unreserved_ascii c Hc) as [Hlt Hne].
  assert (isHighSurrogate c = false) as Hhigh.
  { rewrite /isHighSurrogate. apply andb_false_iff. left. apply N.leb_gt. lia. }
  assert (isLowSurrogate c = false) as Hlow.
  { rewrite /isLowSurrogate. apply andb_false_iff. left. apply N.leb_gt. lia. }
  cbn [scalars]. rewrite Hhigh Hlow. cbn [fmap list_fmap mjoin list_join].
  rewrite {1}/utf8. rewrite (proj2 (N.ltb_lt c 128) Hlt).
  cbn [app fmap list_fmap mjoin list_join].
  rewrite {1}/urlencodeByte. rewrite (proj2 (N.eqb_neq c 32) Hne).
  fold (unreserved c). rewrite Hc. cbn [app]. by rewrite IH.
Qed.

Lemma pretty_N_char_unreserved (x : N) :
  unreserved (N_of_ascii (pretty_N_char x)) = true.
Proof. rewrite /pretty_N_char. by repeat case_match. Qed.

Lemma pretty_N_go_unreserved (x : N) (s : string) :
  Forall (λ c, unreserved c = true) (lit s) →
  Forall (λ c, unreserved c = true) (lit (pretty_N_go x s)).
Proof.
  revert s. induction (N.lt_wf_0 x) as [x _ IH]. intros s Hs.
  destruct (decide (x = 0)) as [->|Hx]; [by rewrite pretty_N_go_0|].
  rewrite pretty_N_go_step; [lia|]. apply IH.
  - apply N.div_lt; lia.
  - constructor; [apply pretty_N_char_unreserved|done].
Qed.

(** A number in decimal consists of digits and the minus sign, which the
    serializer of query strings leaves as they are. *)
Lemma decimal_unreserved (z : Z) :
  Forall (λ c, unreserved c = true) (decimal z).
Proof.
  rewrite /decimal /pretty /pretty_Z.
  destruct z as [|p|p].
  - by repeat constructor.
  - rewrite /pretty /pretty_positive /pretty /pretty_N.
    case_decide; [done|]. by apply pretty_N_go_unreserved.
  - change (lit ("-" +:+ pretty p)) with (45 :: lit (pretty p)).
    constructor; [done|].
    rewrite /pretty /pretty_positive /pretty /pretty_N.
    case_decide; [done|]. by apply pretty_N_go_unreserved.
Qed.

Lemma Number_toString_safe (z : Z) :
  safeInteger z = true → Number_toString z = decimal z.
Proof. rewrite /safeInteger /Number_toString. by intros ->. Qed.

Lemma urlencode_number (z : Z) :
  safeInteger z = true → urlencode (Number_toString z) = decimal z.
Proof.
  intros Hz. rewrite Number_toString_safe; [done|].
  apply urlencode_unreserved, decimal_unreserved.
Qed.

Lemma query_string (params : ListParams) :
  let query := URLSearchParams_toString (searchParams params) in
  listQuery (λ z, urlencode (Number_toString z)) params
  = if bool_decide (query = []) then [] else lit "?" ++ query.
Proof.
  destruct params as [limit [o|]]; rewrite /listQuery; cbn [Api.limit Api.offset].
  - rewrite searchParams_offset searchParams_no_offset.
    destruct limit as [l|]; [destruct (l =? 0)%Z|];
      rewrite /URLSearchParams_toString;
      cbn [app fmap list_fmap join fst snd];
      change (urlencode (lit "offset")) with (lit "offset");
      change (urlencode (lit "limit")) with (lit "limit");
      by rewrite ?app_nil_r -?app_assoc.
  - rewrite searchParams_no_offset.
    destruct limit as [l|]; [destruct (l =? 0)%Z|];
      rewrite /URLSearchParams_toString;
      cbn [app fmap list_fmap join fst snd];
      change (urlencode (lit "limit")) with (lit "limit");
      by rewrite ?app_nil_r -?app_assoc.
Qed.

Lemma listQuery_ext (f g : Z → str) (params : ListParams) :
  (∀ z, limit params = Some z → f z = g z) →
  (∀ z, offset params = Some z → f z = g z) →
  listQuery f params = listQuery g params.
Proof.
  destruct params as [l o]. rewrite /listQuery. cbn [Api.limit Api.offset].
  intros Hl Ho.
  destruct l as [l|]; [destruct (l =? 0)%Z|]; destruct o as [o|];
    rewrite ?(Hl l eq_refl) ?(Ho o eq_refl); done.
Qed.

(** X5. The endpoints of the two list operations, in closed form: the
    path, then [limit] when it is a number other than zero, then [offset]
    when it is a number, each as the number-to-string conversion prints it
    and the serializer of query strings escapes it. For integers of
    magnitude below 2^53 that is the decimal expansion, with nothing
    escaped; a limit of 10^21 prints in exponent form and is sent as
    [limit=1e%2B21]. A limit of zero is left out like a missing one,
    although an offset of zero is sent. The request of [fetchArticles]
    goes to that endpoint under the API base, with the default method and
    without a body. *)
Theorem list_endpoints (params : ListParams) :
  let sent := listQuery (λ z, urlencode (Number_toString z)) params in
  jobsEndpoint params = lit "/jobs" ++ sent
  ∧ articlesEndpoint params = lit "/articles" ++ sent
  ∧ ((∀ z, limit params = Some z → safeInteger z = true) →
     (∀ z, offset params = Some z → safeInteger z = true) →
     sent = listQuery decimal params)
  ∧ jobsEndpoint {| limit := Some 1000000000000000000000%Z; offset := None |}
    = lit "/jobs?limit=1e%2B21"
  ∧ jobsEndpoint {| limit := Some 0%Z; offset := offset params |}
    = jobsEndpoint {| limit := None; offset := offset params |}
  ∧ (∀ env fetch, ∃ request,
       (fetchArticles env fetch params).1 = [request]
       ∧ url request = API_BASE env ++ lit "/articles" ++ sent
       ∧ method request = None
       ∧ body request = None).
Proof.
  intros sent. pose proof (query_string params) as Hq. cbn zeta in Hq.
  fold sent in Hq.
  split; [|split; [|split; [|split; [|split]]]].
  - rewrite /jobsEndpoint Hq. case_bool_decide; [by rewrite app_nil_r|done].
  - rewrite /articlesEndpoint Hq. case_bool_decide; [by rewrite app_nil_r|done].
  - intros Hlimit Hoffset. apply listQuery_ext.
    + intros z Hz. by apply urlencode_number, Hlimit.
    + intros z Hz. by apply urlencode_number, Hoffset.
  - by vm_compute.
  - done.
  - intros env fetch. rewrite /fetchArticles.
    destruct (apiFetch_run env fetch (articlesEndpoint params) None)
      as (request & Hurl & Hmethod & Hbody & ->).
    exists request. split; [|split; [|done]].
    + destruct (fetch request) as [response|]; [|done].
      destruct (decode response) as [payload|]; [|done].
      destruct (ok response); [|done]. cbn [bind lift app].
      destruct (prop payload (lit "data")); [|done]. cbn [bind lift app].
      by destruct (prop payload (lit "pagination")).
    + rewrite Hurl. f_equal.
      assert (articlesEndpoint params = lit "/articles" ++ sent) as ->.
      { rewrite /articlesEndpoint Hq.
        case_bool_decide; [by rewrite app_nil_r|done]. }
      done.
Qed.

Lemma list_endpoints_witness :
  listQuery (λ z, urlencode (Number_toString z))
    {| limit := Some 100%Z; offset := Some 0%Z |}
  = lit "?limit=100&offset=0".
Proof.
  apply (list_endpoints {| limit := Some 100%Z; offset := Some 0%Z |}).
  - by intros z [= <-].
  - by intros z [= <-].
Defined.

Lemma literal_path (path rest : str) :
  startsWith path (lit "/") = true →
  normalizedPath (path ++ rest) = path ++ rest.
Proof.
  intros Hp%startsWith_true. rewrite /normalizedPath.
  rewrite (proj2 (startsWith_true _ _)); [|done].
  by apply prefix_app_r.
Qed.

(** X6. The list operations unwrap the envelope without checking it: for
    a response in the range 200 to 299 whose body decodes to anything but
    [null], they return the [data] and [pagination] properties of the
    payload, [undefined] where the payload has none, and the [success]
    field is not consulted. A [null] payload makes them throw a
    [TypeError]. *)
Theorem list_operations_unwrap env params response payload :
  ok response = true →
  decode response = Ok payload →
  (fetchJobs env (λ _, Ok response) params).2
  = match payload with
    | VUndefined | VNull => Throw (TypeError_read payload (lit "data"))
    | _ => Ok (VObj [(lit "jobs", get payload (lit "data"));
                     (lit "pagination", get payload (lit "pagination"))])
    end
  ∧ (fetchArticles env (λ _, Ok response) params).2
    = match payload with
      | VUndefined | VNull => Throw (TypeError_read payload (lit "data"))
      | _ => Ok (VObj [(lit "articles", get payload (lit "data"));
                       (lit "pagination", get payload (lit "pagination"))])
      end.
Proof.
  intros Hok Hdecode. split.
  - rewrite /fetchJobs.
    destruct (apiFetch_run env (λ _, Ok response) (jobsEndpoint params) None)
      as (request & _ & _ & _ & ->).
    rewrite Hdecode Hok. by destruct payload.
  - rewrite /fetchArticles.
    destruct (apiFetch_run env (λ _, Ok response) (articlesEndpoint params) None)
      as (request & _ & _ & _ & ->).
    rewrite Hdecode Hok. by destruct payload.
Qed.

Lemma list_operations_unwrap_witness :
  let env := {| NEXT_PUBLIC_BACKEND_API := Some (lit "https://example.com");
                BACKEND_API := None |} in
  let payload := VObj [(lit "success", VBool false);
                       (lit "data", VArr [])] in
  let response :=
    {| Fetch.status := 200; statusText := lit "OK";
       contentType := Some (lit "application/json");
       json := Ok payload; text := [] |} in
  let params := {| limit := Some 100%Z; offset := None |} in
  (fetchJobs env (λ _, Ok response) params).2
  = Ok (VObj [(lit "jobs", get payload (lit "data"));
              (lit "pagination", get payload (lit "pagination"))])
  ∧ (fetchArticles env (λ _, Ok response) params).2
    = Ok (VObj [(lit "articles", get payload (lit "data"));
                (lit "pagination", get payload (lit "pagination"))]).
Proof.
  intros env payload response params.
  apply (list_operations_unwrap env params response payload); reflexivity.
Defined.

(** X7. What the mutations put on the wire. [updateJobStatus] sends a
    [PATCH] to [/jobs/<id>/status] whose body is the JSON text of an
    object with the single property [isActive], with the JSON content
    type. The two delete operations send a [DELETE] without body and
    without headers; [deleteArticle] places the slug in the path as it
    is, without escaping. [fetchJobAnalytics] sends a plain request to
    [/analytics/<id>]. *)
Theorem mutation_requests env fetch :
  (∀ jobId isActive,
     (updateJobStatus env fetch jobId isActive).1
     = [ {| url := API_BASE env ++ lit "/jobs/" ++ Number_toString jobId
                     ++ lit "/status";
            method := Some (lit "PATCH");
            headers := {[ lit "content-type" := lit "application/json" ]};
            body := Some ([123; 34] ++ lit "isActive" ++ [34; 58]
                            ++ (if isActive then lit "true" else lit "false")
                            ++ [125]);
            cache := Some (lit "no-store") |} ])
  ∧ (∀ jobId,
       (deleteJob env fetch jobId).1
       = [ {| url := API_BASE env ++ lit "/jobs/" ++ Number_toString jobId;
              method := Some (lit "DELETE"); headers := ∅; body := None;
              cache := Some (lit "no-store") |} ])
  ∧ (∀ slug,
       (deleteArticle env fetch slug).1
       = [ {| url := API_BASE env ++ lit "/articles/" ++ slug;
              method := Some (lit "DELETE"); headers := ∅; body := None;
              cache := Some (lit "no-store") |} ])
  ∧ (∀ jobId,
       (fetchJobAnalytics env fetch jobId).1
       = [ {| url := API_BASE env ++ lit "/analytics/" ++ Number_toString jobId;
              method := None; headers := ∅; body := None;
              cache := Some (lit "no-store") |} ]).
Proof.
  split; [|split; [|split]].
  - intros jobId isActive. rewrite /updateJobStatus bind_trace; [done|].
    rewrite apiFetch_sent literal_path; [done|]. by destruct isActive.
  - intros jobId. rewrite /deleteJob bind_trace; [done|].
    by rewrite apiFetch_sent literal_path.
  - intros slug. rewrite /deleteArticle bind_trace; [done|].
    by rewrite apiFetch_sent literal_path.
  - intros jobId. rewrite /fetchJobAnalytics bind_trace; [done|].
    by rewrite apiFetch_sent literal_path.
Qed.

End ClientMore.

(** ** More on the session store *)

Section SessionMore.

Import Session Spec Navigation.

Context `{!JsonParser}.

(** X8. What the hydrate transition of a fresh store ends in is decided
    by storage alone. It ends authenticated exactly when storage holds a
    non-empty record that parses to a value with a truthy [username], and
    the identity is then the parsed value; it logs a warning exactly when
    reading or parsing fails; and it leaves storage as it found it. *)
Theorem hydrate_outcomes (w : window) :
  (authenticated (store (hydrate (fresh w)).2)
   ↔ ∃ items stored,
       w = Window (Storage items)
       ∧ items !! STORAGE_KEY = Some stored
       ∧ stored ≠ []
       ∧ JSON_parse stored = Ok (admin (store (hydrate (fresh w)).2))
       ∧ truthy (get_opt (admin (store (hydrate (fresh w)).2)) (lit "username"))
         = true)
  ∧ (console (hydrate (fresh w)).2 ≠ [] ↔ ∃ e, restoreFails w e)
  ∧ win (hydrate (fresh w)).2 = w.
Proof.
  split; [|split; [|apply hydrate_completes]].
  - rewrite /hydrate /try_catch_finally /bind /hasWindow /getItem /authenticated.
    destruct w as [|[e|items]]; cbn.
    + split; [by intros [_ ?]|]. by intros (? & ? & ? & _).
    + split; [by intros [_ ?]|]. by intros (? & ? & ? & _).
    + destruct (items !! STORAGE_KEY) as [[|ch stored]|] eqn:Hitem; cbn.
      * split; [by intros [_ ?]|]. intros (? & ? & [= <-] & Hs & Hne & _).
        rewrite Hitem in Hs. by injection Hs as <-.
      * destruct (JSON_parse (ch :: stored)) as [parsed|e] eqn:Hparse; cbn.
        -- destruct (truthy (get_opt parsed (lit "username"))) eqn:Hu; cbn.
           ++ split.
              ** intros _. exists items, (ch :: stored). by rewrite Hu.
              ** intros _. split; [done|].
                 destruct parsed as [| | | | | |fields]; done.
           ++ split; [by intros [_ ?]|].
              by intros (? & ? & _ & _ & _ & _ & ?).
        -- split; [by intros [_ ?]|].
           intros (? & ? & [= <-] & Hs & _ & Hp & _).
           rewrite Hitem in Hs. injection Hs as <-. by rewrite Hparse in Hp.
      * split; [by intros [_ ?]|]. intros (? & ? & [= <-] & Hs & _).
        by rewrite Hitem in Hs.
  - rewrite /hydrate /try_catch_finally /bind /hasWindow /getItem.
    destruct w as [|[e|items]]; cbn.
    + split; [done|]. intros [e He]. inversion He.
    + split; [|done]. intros _. exists e. constructor.
    + destruct (items !! STORAGE_KEY) as [[|ch stored]|] eqn:Hitem; cbn.
      * split; [done|]. intros [e He]. inversion He; subst. congruence.
      * destruct (JSON_parse (ch :: stored)) as [parsed|e] eqn:Hparse; cbn.
        -- split.
           ++ by destruct (truthy _).
           ++ intros [e He]. inversion He; subst. congruence.
        -- split; [|done]. intros _. exists e.
           by apply (record_malformed items (ch :: stored)).
      * split; [done|]. intros [e He]. inversion He; subst. congruence.
Qed.

(** X9. A session survives a reload. When [JSON.parse] reads back the
    text that [JSON.stringify] wrote for a session with a truthy
    [username], a fresh store that hydrates from the storage left by
    [setSession] ends authenticated with that same session, and logs
    nothing. *)
Theorem session_survives_reload (items : gmap str str) (st : state)
    (log : list (str * exn)) (session : value) :
  JSON_parse (JSON_stringify session) = Ok session →
  truthy (get_opt session (lit "username")) = true →
  hydrate
    (fresh (win (saveSession session
                   {| win := Window (Storage items); store := st;
                      console := log |}).2))
  = (Ok (),
     {| win := Window (Storage
                 (<[STORAGE_KEY := JSON_stringify session]> items));
        store := {| admin := session; hydrated := true |};
        console := [] |}).
Proof.
  intros Hparse Hu.
  destruct session as [| | | | | |fields]; try done.
  assert (∃ ch text, JSON_stringify (VObj fields) = ch :: text)
    as (ch & text & Htext) by (by eexists _, _).
  rewrite /hydrate /saveSession /try_catch_finally /bind /hasWindow /getItem
    /setItem /setAdmin.
  rewrite Htext in Hparse |- *. cbn.
  by rewrite lookup_insert_eq Hparse Hu.
Qed.

(** X10. [logout] in a browser with working storage deletes the persisted
    record, clears the identity and pushes the login page [/admin] on the
    router, so that a reload ends unauthenticated. Where storage is denied
    it throws before either: the identity stays and nothing is asked of
    the router. Outside the browser nothing is deleted and the identity
    stays: it only pushes the login page on the router. *)
Theorem logout_outcomes (st : state) (log : list (str * exn))
    (past : list nav) :
  (∀ items,
     logout {| session := {| win := Window (Storage items); store := st;
                             console := log |};
               history := past |}
     = (Ok (),
        {| session := {| win := Window (Storage (delete STORAGE_KEY items));
                         store := {| admin := VNull;
                                     hydrated := hydrated st |};
                         console := log |};
           history := past ++ [push (lit "/admin")] |})
     ∧ store (hydrate (fresh (Window (Storage (delete STORAGE_KEY items))))).2
       = unauthenticated)
  ∧ (∀ e,
       logout {| session := {| win := Window (Denied e); store := st;
                               console := log |};
                 history := past |}
       = (Throw e,
          {| session := {| win := Window (Denied e); store := st;
                           console := log |};
             history := past |}))
  ∧ logout {| session := {| win := NoWindow; store := st; console := log |};
              history := past |}
    = (Ok (),
       {| session := {| win := NoWindow; store := st; console := log |};
          history := past ++ [push (lit "/admin")] |}).
Proof.
  split; [|split; [done|done]].
  intros items. split; [done|].
  apply hydrate_absent_record. apply lookup_delete_eq.
Qed.

(** X11. The gates of the pages. The layout shows the page exactly when
    the store is authenticated, and the loading notice exactly before
    hydration; whenever it shows nothing it asks the router for the login
    page; the layout and the login page never redirect in the same state,
    and neither redirects before hydration. *)
Theorem gates_agree (s : state) :
  (AdminLayout_render s = Page ↔ isAuthenticated s = true)
  ∧ (AdminLayout_render s = Loading ↔ hydrated s = false)
  ∧ (AdminLayout_render s = Blank
     ↔ AdminLayout_effect s = Some (replace (lit "/admin")))
  ∧ (AdminLayout_effect s = None ∨ AdminLoginPage_effect s = None)
  ∧ (hydrated s = false →
     AdminLayout_effect s = None ∧ AdminLoginPage_effect s = None)
  ∧ (AdminLoginPage_effect s = Some (replace (lit "/admin/dashboard"))
     ↔ AdminLayout_render s = Page).
Proof.
  rewrite /AdminLayout_render /AdminLayout_effect /AdminLoginPage_effect
    /isAuthenticated.
  destruct (hydrated s), (truthy (admin s)); cbn; repeat split; auto; done.
Qed.

End SessionMore.

Lemma session_survives_reload_witness :
  let session := Session.AdminSession (lit "admin") in
  let parser := Notions.JSON_parse_table [(JSON_stringify session, session)] in
  @Session.hydrate parser
    (Session.fresh
       (Session.win
          (Session.saveSession session
             {| Session.win := Session.Window (Session.Storage ∅);
                Session.store := Session.initial;
                Session.console := [] |}).2))
  = (Ok (),
     {| Session.win :=
          Session.Window
            (Session.Storage
               (<[Session.STORAGE_KEY := JSON_stringify session]> ∅));
        Session.store := {| Session.admin := session;
                            Session.hydrated := true |};
        Session.console := [] |}).
Proof.
  intros session parser.
  apply (@session_survives_reload parser ∅ Session.initial [] session);
    reflexivity.
Defined.

Lemma gates_agree_witness :
  Navigation.AdminLayout_effect Session.initial = None
  ∧ Navigation.AdminLoginPage_effect Session.initial = None.
Proof. apply (gates_agree Session.initial). reflexivity. Defined.

(** ** The login page *)

Section Login.

Import Api Session Spec Navigation LoginPage.

Lemma loginAdmin_trace env fetch credentials :
  ∃ request, (loginAdmin env fetch credentials).1 = [request].
Proof.
  rewrite /loginAdmin bind_trace.
  - intros data. destruct (_ || _); [|done].
    by destruct (ApiError_new _ _).
  - rewrite apiFetch_sent. by eexists.
Qed.

Lemma loginFails_admin (data : value) :
  loginFails data = false → truthy (get data (lit "admin")) = true.
Proof.
  rewrite /loginFails !get_opt_get. intros [_ Hu]%orb_false_elim.
  apply negb_false_iff in Hu.
  by destruct (get data (lit "admin")) as [| | | | | |fields].
Qed.

(** What [handleSubmit] does with the outcome of [loginAdmin]. *)
Lemma handleSubmit_run env fetch (f : form) (a : app) :
  username f ≠ [] →
  password f ≠ [] →
  let outcome :=
    (loginAdmin env fetch
       (VObj [(lit "username", VStr (username f));
              (lit "password", VStr (password f))])).2 in
  length (handleSubmit env fetch f a).1 = 1%nat
  ∧ (handleSubmit env fetch f a).2
    = match outcome with
      | Ok admin =>
          match saveSession admin (session a) with
          | (Ok _, w) =>
              ({| username := username f; password := password f;
                  loading := false; error := None |},
               {| session := w;
                  history := history a ++ [push (lit "/admin/dashboard")] |})
          | (Throw err, w) =>
              ({| username := username f; password := password f;
                  loading := false; error := Some (message err) |},
               {| session := w; history := history a |})
          end
      | Throw err =>
          ({| username := username f; password := password f;
              loading := false; error := Some (message err) |}, a)
      end.
Proof.
  intros Hu Hp outcome. subst outcome. rewrite /handleSubmit.
  destruct (username f) as [|c u] eqn:Eu; [done|].
  destruct (password f) as [|d p] eqn:Ep; [done|].
  set (credentials := VObj _).
  destruct (loginAdmin_trace env fetch credentials) as [request Htrace].
  destruct (loginAdmin env fetch credentials) as [requests outcome].
  cbn [fst snd] in Htrace |- *. subst requests.
  destruct outcome as [admin|err]; [|done].
  by destruct (saveSession admin (session a)) as [[|] ?].
Qed.

(** X12. The login form. With an empty user name or password, submitting
    does nothing: no request goes out and the page stays as it is.
    Otherwise exactly one request goes out and the page stops loading.
    When the response is a success that names the admin: in a browser with
    working storage the identity is persisted in storage, becomes the
    current one, and the router is asked for the dashboard; where the
    browser denies access to storage the message of that failure is
    shown, nothing is stored and the router is not asked anything; outside
    the browser nothing is stored and the router is asked for the
    dashboard. When the response is a logical failure the backend's
    message is shown, as a string; when its status is outside the range
    200 to 299 a message that is not empty is shown; when its body does
    not decode, or the network fails, the message of that failure is
    shown. In all these cases nothing is stored and the router is not
    asked anything. *)
Theorem login_flow env (f : form) :
  (∀ fetch a,
     username f = [] ∨ password f = [] →
     handleSubmit env fetch f a = ([], (f, a)))
  ∧ (∀ fetch a,
       username f ≠ [] → password f ≠ [] →
       length (handleSubmit env fetch f a).1 = 1%nat
       ∧ loading (handleSubmit env fetch f a).2.1 = false)
  ∧ (∀ response data browser st log past,
       username f ≠ [] → password f ≠ [] →
       decode response = Ok data →
       let a := {| session := {| win := browser; store := st; console := log |};
                   history := past |} in
       let after := (handleSubmit env (λ _, Ok response) f a).2 in
       (ok response = true → loginFails data = false →
        match browser with
        | Window (Storage items) =>
            error after.1 = None
            ∧ after.2
              = {| session :=
                     {| win := Window (Storage
                                 (<[STORAGE_KEY :=
                                      JSON_stringify (get data (lit "admin"))]>
                                    items));
                        store := {| admin := get data (lit "admin");
                                    hydrated := hydrated st |};
                        console := log |};
                   history := past ++ [push (lit "/admin/dashboard")] |}
        | Window (Denied e) => error after.1 = Some (message e) ∧ after.2 = a
        | NoWindow =>
            error after.1 = None
            ∧ after.2
              = {| session := session a;
                   history := past ++ [push (lit "/admin/dashboard")] |}
        end)
       ∧ (ok response = true → loginFails data = true →
          after.2 = a
          ∧ error after.1
            = Some match loginMessage data with
                   | Ok text => text
                   | Throw e => message TypeError_primitive
                   end)
       ∧ (ok response = false →
          after.2 = a ∧ ∃ m, error after.1 = Some m ∧ m ≠ []))
  ∧ (∀ response e a,
       username f ≠ [] → password f ≠ [] →
       decode response = Throw e →
       (handleSubmit env (λ _, Ok response) f a).2
       = ({| username := username f; password := password f;
             loading := false; error := Some (message e) |}, a)
       ∧ (handleSubmit env (λ _, Throw e) f a).2
         = ({| username := username f; password := password f;
               loading := false; error := Some (message e) |}, a)).
Proof.
  split; [|split; [|split]].
  - intros fetch a Hempty. rewrite /handleSubmit.
    destruct (username f) as [|c u], (password f) as [|d p];
      destruct Hempty; done.
  - intros fetch a Hu Hp.
    destruct (handleSubmit_run env fetch f a Hu Hp) as [Hone Hafter].
    split; [done|]. rewrite Hafter.
    destruct (loginAdmin _ _ _).2 as [admin|err]; [|done].
    by destruct (saveSession admin (session a)) as [[|] ?].
  - intros response data browser st log past Hu Hp Hdecode a after.
    subst after.
    destruct (handleSubmit_run env (λ _, Ok response) f a Hu Hp) as [_ ->].
    rewrite loginAdmin_outcome Hdecode.
    split; [|split].
    + intros -> Hfails. rewrite Hfails.
      rewrite /saveSession /bind /hasWindow /setItem /setAdmin.
      destruct browser as [|[e|items]]; cbn.
      * done.
      * by rewrite (loginFails_admin data Hfails).
      * by rewrite (loginFails_admin data Hfails).
    + intros -> ->.
      destruct (loginMessage data) as [text|e] eqn:Hmessage; [done|].
      rewrite loginMessage_eq in Hmessage.
      by rewrite (String_throws _ _ Hmessage).
    + intros ->. split; [done|]. eexists. split; [done|].
      apply rejection_message.
  - intros response e a Hu Hp Hdecode. split.
    + destruct (handleSubmit_run env (λ _, Ok response) f a Hu Hp) as [_ ->].
      by rewrite loginAdmin_outcome Hdecode.
    + destruct (handleSubmit_run env (λ _, Throw e) f a Hu Hp) as [_ ->].
      rewrite /loginAdmin.
      by destruct (apiFetch_run env (λ _, Throw e) (lit "/auth/admin/login")
                     (post (VObj [(lit "username", VStr (username f));
                                  (lit "password", VStr (password f))])))
        as (request & _ & _ & _ & ->).
Qed.

End Login.

Lemma login_flow_witness :
  let env := {| Api.NEXT_PUBLIC_BACKEND_API := Some (lit "https://example.com");
                Api.BACKEND_API := None |} in
  let f := {| LoginPage.username := lit "admin"; LoginPage.password := lit "pw";
              LoginPage.loading := false; LoginPage.error := None |} in
  let data := VObj [(lit "success", VBool true);
                    (lit "admin", Session.AdminSession (lit "admin"))] in
  let response :=
    {| Fetch.status := 200; statusText := lit "OK";
       contentType := Some (lit "application/json");
       json := Ok data; text := [] |} in
  let denied :=
    mkExn (lit "SecurityError") (lit "The operation is insecure.") None in
  let a := {| Navigation.session :=
                {| Session.win := Session.Window (Session.Denied denied);
                   Session.store := Session.initial;
                   Session.console := [] |};
              Navigation.history := [] |} in
  let after := (LoginPage.handleSubmit env (λ _, Ok response) f a).2 in
  LoginPage.error after.1 = Some (lit "The operation is insecure.")
  ∧ after.2 = a.
Proof.
  intros env f data response denied a after.
  destruct (login_flow env f) as (_ & _ & Hresponse & _).
  destruct (Hresponse response data (Session.Window (Session.Denied denied))
              Session.initial [] []) as [Hsuccess _];
    [done|done|reflexivity|].
  apply Hsuccess; reflexivity.
Defined.

(** ** The job form and the job list *)

Section JobEditing.

Import Api Domain JobsPage JobForm JobList Notions.

Implicit Types (s t : str) (tags : list str).

Lemma split_comma_free (sep : N) s : sep ∉ s → split sep s = [s].
Proof.
  induction s as [|c s IH]; [done|].
  intros [Hc Hs]%not_elem_of_cons. cbn [split].
  rewrite (proj2 (N.eqb_neq c sep)); [congruence|]. by rewrite IH.
Qed.

Lemma split_app_sep (sep : N) s t :
  sep ∉ s → split sep (s ++ sep :: t) = s :: split sep t.
Proof.
  induction s as [|c s IH].
  - intros _. cbn [app split]. by rewrite N.eqb_refl.
  - intros [Hc Hs]%not_elem_of_cons. cbn [app split].
    rewrite (proj2 (N.eqb_neq c sep)); [congruence|]. by rewrite IH.
Qed.

(** Splitting undoes joining when no piece holds the separator. *)
Lemma split_join_pieces (sep : N) (ps : list str) :
  ps ≠ [] → Forall (λ p : str, sep ∉ p) ps → split sep (join [sep] ps) = ps.
Proof.
  induction ps as [|p [|q ps] IH]; [done| |].
  - intros _ [Hp _]%Forall_cons. by apply split_comma_free.
  - intros _ [Hp Hps]%Forall_cons.
    change (join [sep] (p :: q :: ps)) with (p ++ sep :: join [sep] (q :: ps)).
    rewrite split_app_sep; [done|]. by rewrite IH.
Qed.

Lemma trim_fixed t :
  t ≠ [] →
  (∀ c, head t = Some c → isWhiteSpace c = false) →
  (∀ c, last t = Some c → isWhiteSpace c = false) →
  trim t = t.
Proof.
  intros Hne Hhead Hlast. rewrite /trim.
  assert (dropWhile isWhiteSpace t = t) as ->.
  { destruct t as [|c t]; [done|]. cbn. by rewrite (Hhead c). }
  destruct (last t) as [c|] eqn:Hl; [|by apply last_None in Hl].
  apply last_Some in Hl as [t' ->].
  apply dropWhileEnd_snoc. by apply Hlast.
Qed.

Lemma trim_space t :
  t ≠ [] →
  (∀ c, head t = Some c → isWhiteSpace c = false) →
  (∀ c, last t = Some c → isWhiteSpace c = false) →
  trim (32 :: t) = t.
Proof.
  intros Hne Hhead Hlast. rewrite -{2}(trim_fixed t) //.
Qed.

(** The pieces between the commas of tags joined by a comma and a
    space. *)
Lemma join_comma_space tags :
  tags ≠ [] →
  join (lit ", ") tags
  = join [44] (match tags with
               | [] => []
               | t :: rest => t :: (cons 32 <$> rest)
               end).
Proof.
  destruct tags as [|t rest]; [done|]. intros _.
  revert t. induction rest as [|u rest IH]; intros t; [done|].
  change (join (lit ", ") (t :: u :: rest))
    with (t ++ [44; 32] ++ join (lit ", ") (u :: rest)).
  rewrite IH. cbn [fmap list_fmap].
  change (join [44] (t :: (32 :: u) :: (cons 32 <$> rest)))
    with (t ++ [44] ++ join [44] ((32 :: u) :: (cons 32 <$> rest))).
  destruct rest as [|v rest]; [done|]. cbn [fmap list_fmap].
  change (join [44] ((32 :: u) :: (32 :: v) :: (cons 32 <$> rest)))
    with (32 :: (u ++ [44] ++ join [44] ((32 :: v) :: (cons 32 <$> rest)))).
  change (join [44] (u :: (32 :: v) :: (cons 32 <$> rest)))
    with (u ++ [44] ++ join [44] ((32 :: v) :: (cons 32 <$> rest))).
  done.
Qed.

Lemma trim_spaced tags :
  Forall wellFormedTag tags → trim <$> (cons 32 <$> tags) = tags.
Proof.
  induction 1 as [|t tags (Hne & _ & Hhead & Hlast) _ IH]; [done|].
  cbn [fmap list_fmap]. rewrite trim_space; [done..|]. by rewrite IH.
Qed.

Lemma filter_nonempty_all (l : list str) :
  Forall (λ t : str, t ≠ []) l → filter (λ t : str, t ≠ []) l = l.
Proof.
  induction 1 as [|t l Ht _ IH]; [done|].
  by rewrite filter_cons_True // IH.
Qed.

Lemma techArray_of_joined values tags :
  Forall wellFormedTag tags →
  tech values = join (lit ", ") tags →
  techArray values = tags.
Proof.
  intros Hwf Htech. rewrite techArray_eq Htech.
  destruct tags as [|t rest]; [done|].
  rewrite join_comma_space; [done|].
  apply Forall_cons in Hwf as [(Hne & Hcomma & Hhead & Hlast) Hrest].
  rewrite split_join_pieces; [done| |].
  { constructor; [done|]. apply Forall_fmap.
    eapply Forall_impl; [exact Hrest|]. intros u (_ & Hu & _).
    apply not_elem_of_cons. split; [done|exact Hu]. }
  cbn [fmap list_fmap]. rewrite trim_fixed; [done..|].
  rewrite trim_spaced; [done|].
  apply filter_nonempty_all. constructor; [done|].
  eapply Forall_impl; [exact Hrest|]. by intros u (? & _).
Qed.

(** The tags that [techArray] returns are in normal form. *)
Lemma techArray_well_formed values : Forall wellFormedTag (techArray values).
Proof.
  rewrite techArray_eq. apply Forall_forall.
  intros t [Ht (p & -> & Hp)%list_elem_of_fmap]%list_elem_of_filter.
  split; [done|]. split; [|split; [apply trim_head|apply trim_last]].
  intros Hin. pose proof (split_pieces 44 (tech values)) as Hall.
  rewrite Forall_forall in Hall. apply (Hall p Hp).
  destruct (trim_inside p) as (a & b & Hab). rewrite Hab.
  apply elem_of_app. right. apply elem_of_app. by left.
Qed.

(** X13. The tag list survives the edit form. The form shows the tags of
    a job joined by a comma and a space, and the payload splits that
    string again: for tags that are not empty, hold no comma and have no
    white space at either end, the tags of the payload are the tags that
    were joined, in the same order. *)
Theorem techArray_round_trip values tags :
  Forall wellFormedTag tags →
  tech values = join (lit ", ") tags →
  techArray values = tags
  ∧ get (payload values) (lit "tech") = VArr (VStr <$> tags).
Proof.
  intros Hwf Htech.
  pose proof (techArray_of_joined values tags Hwf Htech) as Htags.
  split; [done|]. by rewrite -Htags.
Qed.

(** X14. The tags of a payload are a normal form: joining them as the
    edit form does and building the payload again gives the same tags,
    whatever string they came from. *)
Theorem techArray_normal_form values values' :
  tech values' = join (lit ", ") (techArray values) →
  techArray values' = techArray values.
Proof. apply techArray_of_joined, techArray_well_formed. Qed.

(** X15. Editing a job and submitting the form untouched sends the job
    back as it is: when the tags of the job are in normal form, the
    payload built from the initial values of the edit form carries the
    title, company, apply URL, markdown, tags and active flag of the job;
    the slug is left out when it is empty, and a salary or an image that
    is [null] or empty is sent as [null]. *)
Theorem edit_untouched_payload (job : Job) :
  Forall wellFormedTag (Domain.tech job) →
  payload (resolvedInitialValues (getInitialValues edit (Some job)))
  = VObj [ (lit "title", VStr (Domain.title job));
           (lit "company", VStr (Domain.company job));
           (lit "applyUrl", VStr (Domain.applyUrl job));
           (lit "markdown", VStr (Domain.markdown job));
           (lit "tech", VArr (VStr <$> Domain.tech job));
           (lit "slug", match Domain.slug job with
                        | [] => VUndefined
                        | slug => VStr slug
                        end);
           (lit "salary", match Domain.salary job with
                          | None | Some [] => VNull
                          | Some salary => VStr salary
                          end);
           (lit "image", match Domain.image job with
                         | None | Some [] => VNull
                         | Some image => VStr image
                         end);
           (lit "isActive", VBool (Domain.isActive job)) ].
Proof.
  intros Hwf. rewrite /payload.
  rewrite (techArray_of_joined _ (Domain.tech job) Hwf); [done|].
  cbn. destruct (Domain.slug job), (Domain.salary job) as [[|??]|],
    (Domain.image job) as [[|??]|]; done.
Qed.

End JobEditing.

(** Tags given by literals are in normal form. *)
Ltac well_formed_tags :=
  repeat (apply Forall_cons; split;
          [split; [by vm_compute|];
           split; [apply (bool_decide_unpack _); vm_compute; exact I|];
           split; (let c := fresh in let H := fresh in
                   intros c H; vm_compute in H; injection H as <-;
                   reflexivity)|]);
  by apply Forall_nil.

Lemma techArray_round_trip_witness :
  let values :=
    {| JobsPage.title := []; JobsPage.slug := []; JobsPage.company := [];
       JobsPage.applyUrl := []; JobsPage.salary := []; JobsPage.image := [];
       JobsPage.tech := lit "Go, Node.js, C++"; JobsPage.markdown := [];
       JobsPage.isActive := true |} in
  JobsPage.techArray values = [lit "Go"; lit "Node.js"; lit "C++"]
  ∧ get (JobsPage.payload values) (lit "tech")
    = VArr (VStr <$> [lit "Go"; lit "Node.js"; lit "C++"]).
Proof.
  intros values.
  apply (techArray_round_trip values [lit "Go"; lit "Node.js"; lit "C++"]);
    [well_formed_tags|reflexivity].
Defined.

Lemma techArray_normal_form_witness :
  let values tech :=
    {| JobsPage.title := []; JobsPage.slug := []; JobsPage.company := [];
       JobsPage.applyUrl := []; JobsPage.salary := []; JobsPage.image := [];
       JobsPage.tech := tech; JobsPage.markdown := [];
       JobsPage.isActive := true |} in
  JobsPage.techArray (values (lit "a, b"))
  = JobsPage.techArray (values (lit " ,a ,, b ")).
Proof.
  intros values.
  apply (techArray_normal_form (values (lit " ,a ,, b ")) (values (lit "a, b"))).
  reflexivity.
Defined.

Lemma edit_untouched_payload_witness :
  let job :=
    {| Domain.id := 7; Domain.slug := lit "go-dev"; Domain.title := lit "Go dev";
       Domain.company := lit "LK"; Domain.salary := None;
       Domain.tech := [lit "Go"; lit "SQL"]; Domain.image := Some [];
       Domain.isActive := false; Domain.applyUrl := lit "https://example.com";
       Domain.markdown := lit "text"; Domain.createdAt := lit "2024-01-01";
       Domain.analytics := None |} in
  get (JobsPage.payload
         (JobForm.resolvedInitialValues
            (JobList.getInitialValues JobsPage.edit (Some job))))
    (lit "tech")
  = VArr [VStr (lit "Go"); VStr (lit "SQL")].
Proof.
  intros job. rewrite (edit_untouched_payload job);
    [well_formed_tags|reflexivity].
Defined.

(** ** Submitting, filtering and deleting jobs *)

Section JobActions.

Import Api Client Domain JobsPage JobList.

Implicit Types (env : ProcessEnv) (fetch : Request → result Response).

(** X16. [handleSubmitJob] makes at most one request, and none in edit
    mode without a selected job. Whatever fails underneath reaches the
    form as a plain [Error] with the same message: the status of an
    [ApiError] is lost on the way. *)
Theorem handleSubmitJob_errors env fetch modalMode selectedJob values :
  (length (handleSubmitJob env fetch modalMode selectedJob values).1 ≤ 1)%nat
  ∧ (modalMode = edit → truthy selectedJob = false →
     handleSubmitJob env fetch modalMode selectedJob values
     = ([], Ok VUndefined))
  ∧ (∀ e,
       (handleSubmitJob env fetch modalMode selectedJob values).2 = Throw e →
       name e = lit "Error" ∧ JS.status e = None)
  ∧ (∀ e,
       (createJob env fetch (payload values)).2 = Throw e →
       (handleSubmitJob env fetch create selectedJob values).2
       = Throw (Error_ (message e)))
  ∧ (∀ e,
       truthy selectedJob = true →
       (updateJob env fetch (get selectedJob (lit "id")) (payload values)).2
       = Throw e →
       (handleSubmitJob env fetch edit selectedJob values).2
       = Throw (Error_ (message e))).
Proof.
  assert (∀ path init,
            (bind (apiFetch env fetch path init)
               (λ response, lift (prop response (lit "data")))).1
            = (apiFetch env fetch path init).1) as Htrace.
  { intros path init. by apply bind_trace. }
  rewrite /handleSubmitJob /createJob /updateJob.
  split; [|split; [|split; [|split]]].
  - destruct modalMode; [|destruct (truthy selectedJob); [|cbn; lia]].
    + pose proof (Htrace (lit "/jobs") (post (payload values))) as Ht.
      rewrite apiFetch_sent in Ht.
      destruct (bind _ _) as [t [a|e]]; cbn [fst] in Ht |- *; by subst t.
    + destruct (String_ (get selectedJob (lit "id"))) as [id|e];
        [rewrite bind_lift_ok|cbn; lia].
      pose proof (Htrace (lit "/jobs/" ++ id) (patch (payload values))) as Ht.
      rewrite apiFetch_sent in Ht.
      destruct (bind _ _) as [t [a|e]]; cbn [fst] in Ht |- *; by subst t.
  - by intros -> ->.
  - intros e. destruct modalMode; [|destruct (truthy selectedJob); [|done]].
    + destruct (bind _ _) as [t [a|e']]; [done|]. by intros [= <-].
    + destruct (bind _ _) as [t [a|e']]; [done|]. by intros [= <-].
  - intros e. destruct (bind _ _) as [t [a|e']]; [done|]. by intros [= <-].
  - intros e ->. destruct (bind _ _) as [t [a|e']]; [done|]. by intros [= <-].
Qed.

Context `{!LowerCase}.

(** X17. Filtering the job list. The jobs shown under the filters
    [active] and [inactive] are active and inactive ones, and together
    they are the jobs shown under [all]; what is shown is always part of
    the list, in its order; and a search string that is empty after
    trimming and lower-casing hides nothing. *)
Theorem filteredJobs_partition (jobs : list Job) (searchQuery : str) :
  filteredJobs jobs searchQuery all
    ≡ₚ filteredJobs jobs searchQuery active
         ++ filteredJobs jobs searchQuery inactive
  ∧ Forall (λ job, Domain.isActive job = true)
      (filteredJobs jobs searchQuery active)
  ∧ Forall (λ job, Domain.isActive job = false)
      (filteredJobs jobs searchQuery inactive)
  ∧ (∀ filterStatus, filteredJobs jobs searchQuery filterStatus `sublist_of` jobs)
  ∧ (toLowerCase (trim searchQuery) = [] →
     filteredJobs jobs searchQuery all = jobs).
Proof.
  rewrite /filteredJobs. split; [|split; [|split; [|split]]].
  - induction jobs as [|job jobs IH]; [done|].
    rewrite !filter_cons. cbn [matchesStatus].
    destruct (matchesSearch _ job), (Domain.isActive job); cbn;
      repeat case_decide; try done.
    + by rewrite IH.
    + rewrite IH. apply Permutation_middle.
  - apply Forall_forall. intros job [Hm _]%list_elem_of_filter.
    by apply andb_true_iff in Hm as [_ ?].
  - apply Forall_forall. intros job [Hm _]%list_elem_of_filter.
    apply andb_true_iff in Hm as [_ Hs]. by apply negb_true_iff in Hs.
  - intros filterStatus. apply sublist_filter.
  - intros ->. induction jobs as [|job jobs IH]; [done|].
    rewrite filter_cons. cbn. by rewrite IH.
Qed.

End JobActions.

Lemma handleSubmitJob_errors_witness :
  let env := {| Api.NEXT_PUBLIC_BACKEND_API := Some (lit "https://example.com");
                Api.BACKEND_API := None |} in
  JobsPage.handleSubmitJob env (λ _, Throw (Error_ [])) JobsPage.edit VNull
    JobForm.BASE_VALUES
  = ([], Ok VUndefined).
Proof.
  intros env.
  by apply (handleSubmitJob_errors env (λ _, Throw (Error_ [])) JobsPage.edit
              VNull JobForm.BASE_VALUES).
Defined.

Lemma filteredJobs_partition_witness :
  let job :=
    {| Domain.id := 7; Domain.slug := lit "go-dev"; Domain.title := lit "Go dev";
       Domain.company := lit "LK"; Domain.salary := None;
       Domain.tech := [lit "Go"]; Domain.image := None;
       Domain.isActive := false; Domain.applyUrl := lit "https://example.com";
       Domain.markdown := []; Domain.createdAt := lit "2024-01-01";
       Domain.analytics := None |} in
  @JobList.filteredJobs Domain.toLowerCase_latin1 [job] (lit "  ") JobList.all
  = [job].
Proof.
  intros job.
  by apply (@filteredJobs_partition Domain.toLowerCase_latin1 [job] (lit "  ")).
Defined.

Section JobDeletion.

Import Api Client Domain JobList Notions.

Implicit Types (env : ProcessEnv) (job : Job) (p : page).

Lemma deleteJob_run env fetch (jobId : Z) :
  ∃ request,
    deleteJob env fetch jobId
    = ([request],
       match fetch request with
       | Throw e => Throw e
       | Ok response =>
           match decode response with
           | Throw e => Throw e
           | Ok payload =>
               if ok response then Ok ()
               else Throw (rejection response payload)
           end
       end).
Proof.
  rewrite /deleteJob.
  destruct (apiFetch_run env fetch
              (lit "/jobs/" ++ Number_toString jobId) delete_)
    as (request & _ & _ & _ & ->).
  exists request. destruct (fetch request) as [response|e]; [|done].
  destruct (decode response) as [payload|e]; [|done].
  by destruct (ok response).
Qed.

(** X18. Deleting a job from the list. Without the user's confirmation
    nothing happens and no request goes out. With it, one request goes
    out and the mark of the job in progress is cleared. When the backend
    answers in the range 200 to 299 and the body of the answer decodes,
    every job with the id of the deleted one leaves the list and the
    others stay, in their order, and an error shown before stays on the
    screen. When the backend answers outside that range, the list is kept
    whole and a message that is not empty is shown. When the body of the
    answer does not decode, whatever the status, or the network fails, the
    list is kept whole and the message of that failure is shown. *)
Theorem handleDelete_outcomes env job p :
  (∀ fetch, handleDelete env fetch false job p = ([], p))
  ∧ (∀ fetch,
       length (handleDelete env fetch true job p).1 = 1%nat
       ∧ actionJobId (handleDelete env fetch true job p).2 = None)
  ∧ (∀ response payload,
       decode response = Ok payload →
       let after := handleDelete env (λ _, Ok response) true job p in
       (ok response = true →
        jobs after.2
        = filter (λ item : Job, Domain.id item ≠ Domain.id job) (jobs p)
        ∧ Forall (λ item : Job, Domain.id item ≠ Domain.id job) (jobs after.2)
        ∧ (∀ item, item ∈ jobs p → Domain.id item ≠ Domain.id job →
                   item ∈ jobs after.2)
        ∧ jobs after.2 `sublist_of` jobs p
        ∧ error after.2 = error p)
       ∧ (ok response = false →
          jobs after.2 = jobs p
          ∧ ∃ m, error after.2 = Some m ∧ m ≠ []))
  ∧ (∀ response e,
       decode response = Throw e →
       (handleDelete env (λ _, Ok response) true job p).2
       = {| jobs := jobs p; error := Some (message e); actionJobId := None |}
       ∧ (handleDelete env (λ _, Throw e) true job p).2
         = {| jobs := jobs p; error := Some (message e);
              actionJobId := None |}).
Proof.
  split; [done|]. split; [|split].
  - intros fetch. rewrite /handleDelete. cbn [negb].
    destruct (deleteJob_run env fetch (Domain.id job)) as [request ->].
    by destruct (match fetch request with Ok _ => _ | Throw _ => _ end).
  - intros response payload Hdecode after. subst after.
    rewrite /handleDelete. cbn [negb].
    destruct (deleteJob_run env (λ _, Ok response) (Domain.id job))
      as [request ->].
    rewrite Hdecode. destruct (ok response); cbn.
    + split; [|done]. intros _.
      split; [done|]. split; [|split; [|split; [|done]]].
      * apply Forall_forall. by intros item [? _]%list_elem_of_filter.
      * intros item Hin Hid. by apply list_elem_of_filter.
      * apply sublist_filter.
    + split; [done|]. intros _.
      split; [done|]. eexists. split; [done|]. apply rejection_message.
  - intros response e Hdecode. rewrite /handleDelete. cbn [negb]. split.
    + destruct (deleteJob_run env (λ _, Ok response) (Domain.id job))
        as [request ->].
      by rewrite Hdecode.
    + by destruct (deleteJob_run env (λ _, Throw e) (Domain.id job))
        as [request ->].
Qed.

End JobDeletion.

Lemma handleDelete_outcomes_witness :
  let env := {| Api.NEXT_PUBLIC_BACKEND_API := Some (lit "https://example.com");
                Api.BACKEND_API := None |} in
  let job :=
    {| Domain.id := 7; Domain.slug := lit "go-dev"; Domain.title := lit "Go dev";
       Domain.company := lit "LK"; Domain.salary := None;
       Domain.tech := [lit "Go"]; Domain.image := None;
       Domain.isActive := false; Domain.applyUrl := lit "https://example.com";
       Domain.markdown := []; Domain.createdAt := lit "2024-01-01";
       Domain.analytics := None |} in
  let p := {| JobList.jobs := [job]; JobList.error := None;
              JobList.actionJobId := None |} in
  let syntaxError :=
    mkExn (lit "SyntaxError") (lit "Unexpected end of JSON input") None in
  let response :=
    {| Fetch.status := 204; statusText := lit "No Content";
       contentType := Some (lit "application/json");
       json := Throw syntaxError; text := [] |} in
  (JobList.handleDelete env (λ _, Ok response) true job p).2
  = {| JobList.jobs := [job];
       JobList.error := Some (lit "Unexpected end of JSON input");
       JobList.actionJobId := None |}.
Proof.
  intros env job p syntaxError response.
  destruct (handleDelete_outcomes env job p) as (_ & _ & _ & Hunread).
  by apply (Hunread response syntaxError).
Defined.

(** ** Sorting *)

Section Sorting.

Import Domain Notions.

Context {A : Type}.

Implicit Types (compare : A → A → Z) (key : A → Z) (l : list A).

Lemma sort_insert_Permutation compare x l : sort_insert compare x l ≡ₚ x :: l.
Proof.
  induction l as [|y l IH]; [done|]. cbn.
  destruct (compare x y <=? 0)%Z; [done|].
  rewrite IH. apply Permutation_swap.
Qed.

Lemma Array_sort_Permutation compare l : Array_sort compare l ≡ₚ l.
Proof.
  induction l as [|x l IH]; [done|]. cbn.
  by rewrite sort_insert_Permutation IH.
Qed.

Lemma Array_sort_length compare l : length (Array_sort compare l) = length l.
Proof. by rewrite Array_sort_Permutation. Qed.

(** Sorting by a key in descending order. *)
Lemma sort_insert_sorted key x l :
  StronglySorted (λ a b, (key b ≤ key a)%Z) l →
  StronglySorted (λ a b, (key b ≤ key a)%Z)
    (sort_insert (λ a b, (key b - key a)%Z) x l).
Proof.
  induction 1 as [|y l Hsorted IH Hall]; cbn.
  - by repeat constructor.
  - destruct (key y - key x <=? 0)%Z eqn:Hcmp.
    + apply Z.leb_le in Hcmp. constructor; [by constructor|].
      constructor; [lia|]. eapply Forall_impl; [exact Hall|].
      intros z Hz. cbn in Hz. lia.
    + apply Z.leb_gt in Hcmp. constructor; [done|].
      rewrite sort_insert_Permutation. constructor; [lia|done].
Qed.

Lemma Array_sort_sorted key l :
  StronglySorted (λ a b, (key b ≤ key a)%Z)
    (Array_sort (λ a b, (key b - key a)%Z) l).
Proof.
  induction l as [|x l IH]; [constructor|]. cbn. by apply sort_insert_sorted.
Qed.

(** The sort is stable: elements with the same key keep their order. *)
Lemma sort_insert_stable key x l (k : Z) :
  filter (λ a, key a = k) (sort_insert (λ a b, (key b - key a)%Z) x l)
  = filter (λ a, key a = k) (x :: l).
Proof.
  induction l as [|y l IH]; [done|]. cbn [sort_insert].
  destruct (key y - key x <=? 0)%Z eqn:Hcmp; [done|].
  apply Z.leb_gt in Hcmp.
  rewrite filter_cons IH !filter_cons.
  repeat case_decide; try done. lia.
Qed.

Lemma Array_sort_stable key l (k : Z) :
  filter (λ a, key a = k) (Array_sort (λ a b, (key b - key a)%Z) l)
  = filter (λ a, key a = k) l.
Proof.
  induction l as [|x l IH]; [done|]. cbn [Array_sort].
  by rewrite sort_insert_stable !filter_cons IH.
Qed.





End Sorting.

(** ** The charts *)

Section Charts.

Import Domain Analytics Notions.

Implicit Types (jobs : list Job) (job : Job).

(** X19. The performance chart and the dashboard's list of top jobs show
    the jobs with the most clicks: with the jobs left out put behind
    them, the entries are the jobs' entries in descending order of
    clicks, entries with equal clicks in the order of the job list. The
    chart has eight entries, the list five, or as many as there are
    jobs. *)
Theorem top_jobs_by_clicks jobs :
  let points :=
    (λ job, {| name := title job; clicks := clicksOf job;
               uniqueUsers := usersOf job |}) <$> jobs in
  let pairs := (λ job, (title job, clicksOf job)) <$> jobs in
  (∃ rest,
     jobPerformance jobs ++ rest ≡ₚ points
     ∧ StronglySorted (λ a b, (clicks b ≤ clicks a)%Z)
         (jobPerformance jobs ++ rest)
     ∧ (∀ k, filter (λ a, clicks a = k) (jobPerformance jobs ++ rest)
             = filter (λ a, clicks a = k) points))
  ∧ length (jobPerformance jobs) = (8 `min` length jobs)%nat
  ∧ (∃ rest,
       topJobsData jobs ++ rest ≡ₚ pairs
       ∧ StronglySorted (λ a b : str * Z, (b.2 ≤ a.2)%Z)
           (topJobsData jobs ++ rest)
       ∧ (∀ k, filter (λ a : str * Z, a.2 = k) (topJobsData jobs ++ rest)
               = filter (λ a : str * Z, a.2 = k) pairs))
  ∧ length (topJobsData jobs) = (5 `min` length jobs)%nat.
Proof.
  intros points pairs. rewrite /jobPerformance /topJobsData.
  fold points. fold pairs. split; [|split; [|split]].
  - exists (drop 8 (Array_sort (λ a b, (clicks b - clicks a)%Z) points)).
    rewrite take_drop. split; [apply Array_sort_Permutation|].
    split; [apply (Array_sort_sorted clicks)|].
    intros k. apply (Array_sort_stable clicks).
  - by rewrite length_take Array_sort_length length_fmap.
  - exists (drop 5 (Array_sort (λ a b : str * Z, (b.2 - a.2)%Z) pairs)).
    rewrite take_drop. split; [apply Array_sort_Permutation|].
    split; [apply (Array_sort_sorted snd)|].
    intros k. apply (Array_sort_stable snd).
  - by rewrite length_take Array_sort_length length_fmap.
Qed.

(** X20. The job whose analytics are loaded is the most clicked one.
    There is none exactly when no job has a click. Otherwise it is a job
    of the list with at least one click and at least as many as any
    other, and among jobs with as many it is the first of the list. *)
Theorem topJob_most_clicked jobs :
  (topJob jobs = None ↔ Forall (λ job, (clicksOf job ≤ 0)%Z) jobs)
  ∧ (∀ job,
       topJob jobs = Some job →
       (0 < clicksOf job)%Z
       ∧ (∀ other, other ∈ jobs → (clicksOf other ≤ clicksOf job)%Z)
       ∧ ∃ before after,
           jobs = before ++ job :: after
           ∧ Forall (λ other, (clicksOf other < clicksOf job)%Z) before).
Proof.
  rewrite /topJob.
  set (clicked := filter (λ job, (0 < clicksOf job)%Z) jobs).
  set (sorted := Array_sort (λ a b, (clicksOf b - clicksOf a)%Z) clicked).
  assert (sorted ≡ₚ clicked) as Hperm by apply Array_sort_Permutation.
  split.
  - rewrite head_None. split.
    + intros Hnil. rewrite Hnil in Hperm.
      apply Permutation_nil_l in Hperm.
      apply Forall_forall. intros job Hin.
      destruct (decide (0 < clicksOf job)%Z) as [Hpos|]; [|lia].
      assert (job ∈ clicked) as Hc by by apply list_elem_of_filter.
      rewrite -Hperm in Hc. by apply not_elem_of_nil in Hc.
    + intros Hall. destruct sorted as [|job rest] eqn:Hs; [done|].
      assert (job ∈ clicked) as [Hpos Hin]%list_elem_of_filter.
      { rewrite -Hperm. apply list_elem_of_here. }
      rewrite Forall_forall in Hall. specialize (Hall job Hin). lia.
  - intros job Hhead.
    destruct sorted as [|first rest] eqn:Hs; [done|].
    injection Hhead as ->.
    assert (job ∈ clicked) as [Hpos Hin]%list_elem_of_filter.
    { rewrite -Hperm. apply list_elem_of_here. }
    pose proof (Array_sort_sorted clicksOf clicked) as Hsorted.
    fold sorted in Hsorted. rewrite Hs in Hsorted.
    apply StronglySorted_inv in Hsorted as [_ Hle].
    assert (∀ other, other ∈ jobs → (clicksOf other ≤ clicksOf job)%Z) as Hmax.
    { intros other Hother.
      destruct (decide (0 < clicksOf other)%Z) as [Hp|]; [|lia].
      assert (other ∈ job :: rest) as Hmem.
      { rewrite Hperm. by apply list_elem_of_filter. }
      apply elem_of_cons in Hmem as [->|Hmem]; [lia|].
      rewrite Forall_forall in Hle. by apply Hle. }
    split; [done|]. split; [done|].
    pose proof (Array_sort_stable clicksOf clicked (clicksOf job)) as Hstable.
    fold sorted in Hstable. rewrite Hs filter_cons_True // in Hstable.
    rewrite /clicked list_filter_filter in Hstable.
    assert (head (filter (λ x, clicksOf x = clicksOf job ∧ (0 < clicksOf x)%Z)
                    jobs) = Some job) as Hfirst by by rewrite -Hstable.
    apply head_filter_Some in Hfirst as (before & after & -> & Hbefore).
    exists before, after. split; [done|].
    apply Forall_forall. intros other Hother.
    rewrite Forall_forall in Hbefore. specialize (Hbefore other Hother).
    assert (clicksOf other ≤ clicksOf job)%Z.
    { apply Hmax. apply elem_of_app. by left. }
    lia.
Qed.




End Charts.

Lemma topJob_most_clicked_witness :
  let jobs := [Notions.sampleJob 1%Z 3%Z; Notions.sampleJob 2%Z 9%Z; Notions.sampleJob 3%Z 9%Z;
               Notions.sampleJob 4%Z 0%Z] in
  let job := Notions.sampleJob 2%Z 9%Z in
  (0 < Domain.clicksOf job)%Z
  ∧ (∀ other, other ∈ jobs → (Domain.clicksOf other ≤ Domain.clicksOf job)%Z)
  ∧ ∃ before after,
      jobs = before ++ job :: after
      ∧ Forall (λ other, (Domain.clicksOf other < Domain.clicksOf job)%Z)
          before.
Proof.
  intros jobs job.
  apply (proj2 (topJob_most_clicked jobs)).
  reflexivity.
Defined.


(** ** The article form *)

Section Articles.

Import Api Client ArticlesPage.

(** X22. The article form. Without a title or without content, submitting
    sends nothing and shows the notice that both are required. Otherwise
    one [POST] goes to [/articles], whose body is the JSON text of the
    payload built from the form. When the backend answers in the range
    200 to 299 the article it returns is put in front of the list and the
    form is cleared; when it refuses, the list and what the user typed are
    kept and a message is shown. *)
Theorem article_submit env (p : page) :
  (∀ fetch,
     title (form p) = [] ∨ content (form p) = [] →
     handleSubmit env fetch p
     = ([], {| articles := articles p;
               error := Some (lit "Judul dan konten markdown wajib diisi");
               form := form p; submitting := submitting p |}))
  ∧ (∀ response data,
       title (form p) ≠ [] →
       content (form p) ≠ [] →
       decode response = Ok data →
       let after := handleSubmit env (λ _, Ok response) p in
       after.1
       = [ {| url := API_BASE env ++ lit "/articles";
              method := Some (lit "POST");
              headers := {[ lit "content-type" := lit "application/json" ]};
              body := Some (JSON_stringify (payload (form p)));
              cache := Some (lit "no-store") |} ]
       ∧ submitting after.2 = false
       ∧ (ok response = true → data ≠ VNull → data ≠ VUndefined →
          after.2
          = {| articles := get data (lit "data") :: articles p;
               error := None; form := initialForm; submitting := false |})
       ∧ (ok response = false →
          articles after.2 = articles p
          ∧ form after.2 = form p
          ∧ ∃ m, error after.2 = Some m ∧ m ≠ [])).
Proof.
  split.
  - intros fetch Hempty. rewrite /handleSubmit.
    destruct (title (form p)) as [|c t], (content (form p)) as [|d u];
      destruct Hempty; done.
  - intros response data Ht Hc Hdecode after. subst after.
    rewrite /handleSubmit.
    destruct (title (form p)) as [|c t] eqn:Et; [done|].
    destruct (content (form p)) as [|d u] eqn:Ec; [done|].
    assert ((createArticle env (λ _, Ok response) (payload (form p))).1
            = [ {| url := API_BASE env ++ lit "/articles";
                   method := Some (lit "POST");
                   headers := {[ lit "content-type" := lit "application/json" ]};
                   body := Some (JSON_stringify (payload (form p)));
                   cache := Some (lit "no-store") |} ]) as Htrace.
    { rewrite /createArticle bind_trace; [done|].
      rewrite apiFetch_sent. cbn [post default fmap option_fmap option_map
        mbind option_bind init_headers init_body init_method skipContentType
        Headers_new list_fmap negb andb].
      assert (∃ ch text, JSON_stringify (payload (form p)) = ch :: text)
        as (ch & text & ->) by (by eexists _, _).
      done. }
    assert ((createArticle env (λ _, Ok response) (payload (form p))).2
            = if ok response
              then prop data (lit "data")
              else Throw (Notions.rejection response data)) as Houtcome.
    { rewrite /createArticle.
      destruct (apiFetch_run env (λ _, Ok response) (lit "/articles")
                  (post (payload (form p)))) as (request & _ & _ & _ & ->).
      rewrite Hdecode. by destruct (ok response). }
    destruct (createArticle env (λ _, Ok response) (payload (form p)))
      as [requests outcome].
    cbn [fst snd] in Htrace, Houtcome. subst requests outcome.
    destruct (ok response).
    + split; [by destruct (prop data (lit "data"))|].
      split; [by destruct (prop data (lit "data"))|].
      split; [|done]. intros _ Hnull Hundef. by destruct data.
    + cbn. split; [done|]. split; [done|]. split; [done|]. intros _.
      split; [done|]. split; [done|]. eexists. split; [done|].
      apply rejection_message.
Qed.

End Articles.

Lemma article_submit_witness :
  let env := {| Api.NEXT_PUBLIC_BACKEND_API := Some (lit "https://example.com");
                Api.BACKEND_API := None |} in
  let blank := {| ArticlesPage.articles := []; ArticlesPage.error := None;
                  ArticlesPage.form := ArticlesPage.initialForm;
                  ArticlesPage.submitting := false |} in
  let filled :=
    {| ArticlesPage.articles := []; ArticlesPage.error := None;
       ArticlesPage.form :=
         {| ArticlesPage.title := lit "Halo";
            ArticlesPage.content := lit "# Halo";
            ArticlesPage.contentType := []; ArticlesPage.slug := [] |};
       ArticlesPage.submitting := false |} in
  let article := VObj [(lit "slug", VStr (lit "halo"))] in
  let data := VObj [(lit "data", article)] in
  let response :=
    {| Fetch.status := 201; statusText := lit "Created";
       contentType := Some (lit "application/json");
       json := Ok data; text := [] |} in
  ArticlesPage.handleSubmit env (λ _, Throw (Error_ [])) blank
  = ([], {| ArticlesPage.articles := [];
            ArticlesPage.error :=
              Some (lit "Judul dan konten markdown wajib diisi");
            ArticlesPage.form := ArticlesPage.initialForm;
            ArticlesPage.submitting := false |})
  ∧ (ArticlesPage.handleSubmit env (λ _, Ok response) filled).2
    = {| ArticlesPage.articles := [article]; ArticlesPage.error := None;
         ArticlesPage.form := ArticlesPage.initialForm;
         ArticlesPage.submitting := false |}.
Proof.
  intros env blank filled article data response. split.
  - apply (proj1 (article_submit env blank) (λ _, Throw (Error_ []))).
    by left.
  - apply (proj2 (article_submit env filled) response data);
      [done|done|reflexivity|reflexivity|done|done].
Defined.
